(** * Background remover: the transparency refiner and its driver

    A shallow embedding of [process_images_enhanced.py].  The pixel code
    ([ensure_transparency]) is NumPy code over one mutable [uint8] array
    [data] of shape (height, width, 4) and four views of it; it is embedded
    as a state-and-error monad over that array.  The interactive prompts and
    the batch loop are embedded over explicit input and world states. *)

From Stdlib Require Import ZArith QArith Lia Ascii.
From stdpp Require Import base list strings gmap sorting.

Local Open Scope Z_scope.

(** ** Python exceptions

    [Exception] is Python's class of ordinary errors, the ones an
    [except Exception] clause catches.  [KeyboardInterrupt] derives from
    [BaseException] only and passes through such a clause. *)

Inductive Exception : Type :=
| IndexError
| ValueError
| Error (msg : string).

Inductive BaseException : Type :=
| Exc (e : Exception)
| KeyboardInterrupt.

(** ** NumPy arrays

    [np.array(image)] of an RGBA image is a [uint8] array indexed by
    (row, column, channel).  Entries are modelled as [Z]; the only
    arithmetic the program does on them, [uint8 + uint8], wraps modulo 256
    and is written out in [add]. *)

Module np.

(** A two-dimensional array (one entry per pixel) and the image array. *)
Abbreviation ndarray A := (list (list A)) (only parsing).
Abbreviation buffer := (list (list (list Z))) (only parsing).

(** Application of a unary and of a binary function entry by entry. *)
Definition ew1 {A B} (f : A -> B) (a : ndarray A) : ndarray B :=
  fmap (M:=list) (fmap (M:=list) f) a.
Definition ew2 {A B C} (f : A -> B -> C) (a : ndarray A) (b : ndarray B)
  : ndarray C :=
  zip_with (zip_with f) a b.

(** The program state is the array [data]; a computation may raise. *)
Definition M (A : Type) : Type := buffer -> Exception + (A * buffer).

#[global] Instance M_ret : MRet M := fun A x d => inr (x, d).
#[global] Instance M_bind : MBind M := fun A B f m d =>
  match m d with
  | inl e => inl e
  | inr (x, d') => f x d'
  end.

(** [data[:, :, c]] is a view: it holds no entries of its own and reads
    [data] as it is when the view is used. *)
Inductive view : Type := Channel (c : nat).

Definition has_channel (c : nat) (d : buffer) : bool :=
  forallb (forallb (fun px : list Z => (c <? length px)%nat)) d.

Definition channels_are (n : nat) (d : buffer) : bool :=
  forallb (forallb (fun px : list Z => (length px =? n)%nat)) d.

(** [data[:, :, c]]: an [IndexError] when the last axis is too short. *)
Definition getitem_channel (c : nat) : M view := fun d =>
  if has_channel c d then inr (Channel c, d) else inl IndexError.

(** Reading a view inside an expression: the entries of [data] now. *)
Definition load (v : view) : M (ndarray Z) := fun d =>
  match v with
  | Channel c => inr (ew1 (fun px => nth c px 0) d, d)
  end.

(** [a > t], [a < t] and [m1 & m2], each a fresh boolean array. *)
Definition gt (a : ndarray Z) (t : Z) : ndarray bool := ew1 (fun x => t <? x) a.
Definition lt (a : ndarray Z) (t : Z) : ndarray bool := ew1 (fun x => x <? t) a.
Definition and_ (m1 m2 : ndarray bool) : ndarray bool := ew2 andb m1 m2.

(** [a + b] on two [uint8] arrays: the result is [uint8] again, so the sum
    wraps around modulo 256. *)
Definition add (a b : ndarray Z) : ndarray Z :=
  ew2 (fun x y => (x + y) mod 256) a b.

(** [a / k] is true division and gives a float array.  The quotient of a
    [uint8] entry by 3 is compared with 200 only; on such small integers
    the rounded quotient and the exact one compare alike, so the exact
    rationals stand for the floats. *)
Definition true_divide (a : ndarray Z) (k : Z) : ndarray Q :=
  ew1 (fun x => inject_Z x / inject_Z k)%Q a.
Definition gtQ (a : ndarray Q) (t : Q) : ndarray bool :=
  ew1 (fun x => negb (Qle_bool x t)) a.

(** [data[m] = value]: every pixel selected by the mask becomes [value],
    which must have as many entries as the last axis ([ValueError]). *)
Definition setitem_mask (m : ndarray bool) (value : list Z) : M unit := fun d =>
  if channels_are (length value) d
  then inr (tt, ew2 (fun (b : bool) px => if b then value else px) m d)
  else inl ValueError.

(** [data[m, c] = v]: channel [c] of every selected pixel becomes [v]. *)
Definition setitem_mask_channel (m : ndarray bool) (c : nat) (v : Z) : M unit :=
  fun d =>
  if has_channel c d
  then inr (tt, ew2 (fun (b : bool) px => if b then <[c:=v]> px else px) m d)
  else inl IndexError.

(** The array at the end of the computation. *)
Definition get : M buffer := fun d => inr (d, d).

(** [a[i, j]], when the index is in range. *)
Definition item {A} (a : ndarray A) (i j : nat) : option A :=
  a !! i ≫= (fun row => row !! j).

End np.

(** ** PIL images *)

Record Image : Type := { mode : string; pixels : np.buffer }.

(** The four views bound on entry: [red, green, blue, alpha]. *)
Record views : Type :=
  { red : np.view; green : np.view; blue : np.view; alpha : np.view }.

(** Near-white pixels become white and transparent. *)
Definition near_white_pass (v : views) : np.M unit :=
  let threshold := 240 in
  r ← np.load (red v); g ← np.load (green v); b ← np.load (blue v);
  let white_pixels :=
    np.and_ (np.and_ (np.gt r threshold) (np.gt g threshold)) (np.gt b threshold) in
  np.setitem_mask white_pixels [255; 255; 255; 0].

(** Near-transparent pixels become fully transparent. *)
Definition low_alpha_pass (v : views) : np.M unit :=
  a ← np.load (alpha v);
  let semi_transparent := np.lt a 50 in
  np.setitem_mask_channel semi_transparent 3 0.

(** Edge cleanup: bright, partly transparent pixels become transparent. *)
Definition edge_cleanup_pass (v : views) : np.M unit :=
  let edge_threshold := 200 in
  a ← np.load (alpha v);
  let edge_pixels := np.and_ (np.gt a 0) (np.lt a edge_threshold) in
  r ← np.load (red v); g ← np.load (green v); b ← np.load (blue v);
  let edge_white :=
    np.and_ edge_pixels
            (np.gtQ (np.true_divide (np.add (np.add r g) b) 3) (inject_Z 200)) in
  np.setitem_mask_channel edge_white 3 0.

(** The statements of [ensure_transparency] after [data = np.array(image)]. *)
Definition refine : np.M unit :=
  r ← np.getitem_channel 0; g ← np.getitem_channel 1;
  b ← np.getitem_channel 2; a ← np.getitem_channel 3;
  let v := {| red := r; green := g; blue := b; alpha := a |} in
  near_white_pass v;;
  low_alpha_pass v;;
  edge_cleanup_pass v.

Section PIL.

(** [image.convert('RGBA')], PIL's own code. *)
Variable convert_RGBA : Image -> Image.

(** [np.array(image)] copies the pixels of the image into a fresh array,
    and [Image.fromarray(data, 'RGBA')] wraps an array as an image. *)
Definition np_array (image : Image) : np.buffer := pixels image.
Definition fromarray (data : np.buffer) : Image :=
  {| mode := "RGBA"; pixels := data |}.

Definition ensure_transparency (image : Image) : Exception + Image :=
  let image :=
    if negb (String.eqb (mode image) "RGBA") then convert_RGBA image else image in
  match (refine;; np.get) (np_array image) with
  | inl e => inl e
  | inr (data, _) => inr (fromarray data)
  end.

End PIL.

(** ** What each pass does to one pixel

    The masks are computed entry by entry, so each pass acts on every pixel
    by one of the functions below ([near_white_pass_run] and the two lemmas
    after it prove it).  [chan c px] is the entry a view of channel [c]
    reads at that pixel. *)

Definition chan (c : nat) (px : list Z) : Z := nth c px 0.

Definition white_pixels_at (px : list Z) : bool :=
  (240 <? chan 0 px) && (240 <? chan 1 px) && (240 <? chan 2 px).

Definition near_white_px (px : list Z) : list Z :=
  if white_pixels_at px then [255; 255; 255; 0] else px.

Definition semi_transparent_at (px : list Z) : bool := chan 3 px <? 50.

Definition low_alpha_px (px : list Z) : list Z :=
  if semi_transparent_at px then <[3%nat:=0]> px else px.

Definition edge_pixels_at (px : list Z) : bool :=
  (0 <? chan 3 px) && (chan 3 px <? 200).

Definition edge_white_at (px : list Z) : bool :=
  edge_pixels_at px &&
  negb (Qle_bool
          (inject_Z (((chan 0 px + chan 1 px) mod 256 + chan 2 px) mod 256)
           / inject_Z 3)
          (inject_Z 200)).

Definition edge_cleanup_px (px : list Z) : list Z :=
  if edge_white_at px then <[3%nat:=0]> px else px.

Definition refine_px (px : list Z) : list Z :=
  edge_cleanup_px (low_alpha_px (near_white_px px)).

(** The views [refine] binds. *)
Definition rgba_views : views :=
  {| red := np.Channel 0; green := np.Channel 1;
     blue := np.Channel 2; alpha := np.Channel 3 |}.

(** The pixel at row [i], column [j]. *)
Definition pixel_at (d : np.buffer) (i j : nat) : option (list Z) :=
  np.item d i j.

(** Well-formed RGBA input: exactly four channels, every value 8-bit. *)
Definition is_uint8 (x : Z) : Prop := 0 <= x <= 255.
Definition rgba_pixel (px : list Z) : Prop :=
  length px = 4%nat /\ Forall is_uint8 px.
Definition well_formed (d : np.buffer) : Prop := Forall (Forall rgba_pixel) d.
Definition well_formed_image (image : Image) : Prop :=
  mode image = "RGBA" /\ well_formed (pixels image).

(** The part of well-formedness the run-time checks of NumPy look at. *)
Definition four_channels (d : np.buffer) : Prop :=
  Forall (Forall (fun px : list Z => length px = 4%nat)) d.

(** Height and the width of every row. *)
Definition shape (d : np.buffer) : list nat := length <$> d.

(** The edge test of the pass as the specification words it: the mean of the
    three colour values, summed without wrap-around, exceeds 200. *)
Definition spec_edge_white_at (px : list Z) : bool :=
  edge_pixels_at px &&
  negb (Qle_bool (inject_Z (chan 0 px + chan 1 px + chan 2 px) / inject_Z 3)
                 (inject_Z 200)).

(** A sample image: near-white, dark, faint, and a bright soft edge. *)
Definition sample : Image :=
  {| mode := "RGBA";
     pixels := [[[250; 250; 250; 255]; [10; 10; 10; 255]];
                [[0; 0; 0; 30]; [210; 210; 200; 120]]] |}.

(** ** Console input

    A Python [str] is modelled as a string of code points below 256.
    [isspace] and [lower] are Python's on that range. *)

Definition isspace (c : Ascii.ascii) : bool :=
  let n := Ascii.nat_of_ascii c in
  ((9 <=? n) && (n <=? 13) || (28 <=? n) && (n <=? 32)
   || (n =? 133) || (n =? 160))%nat.

Definition lower_char (c : Ascii.ascii) : Ascii.ascii :=
  let n := Ascii.nat_of_ascii c in
  if ((65 <=? n) && (n <=? 90) || (192 <=? n) && (n <=? 214)
      || (216 <=? n) && (n <=? 222))%nat
  then Ascii.ascii_of_nat (n + 32) else c.

Fixpoint lower (s : string) : string :=
  match s with
  | EmptyString => EmptyString
  | String c s' => String (lower_char c) (lower s')
  end.

Fixpoint lstrip (s : string) : string :=
  match s with
  | EmptyString => EmptyString
  | String c s' => if isspace c then lstrip s' else s
  end.

Fixpoint rstrip (s : string) : string :=
  match s with
  | EmptyString => EmptyString
  | String c s' =>
      match rstrip s' with
      | EmptyString => if isspace c then EmptyString else String c EmptyString
      | r => String c r
      end
  end.

Definition strip (s : string) : string := rstrip (lstrip s).

(** [input(prompt)] takes the next line of standard input; [EOFError] when
    there is none.  The prompt and the printed banner are output only. *)
Definition input (stdin : list string) : Exception + (string * list string) :=
  match stdin with
  | [] => inl (Error "EOFError")
  | line :: rest => inr (line, rest)
  end.

Definition select_options (stdin : list string)
  : Exception + (bool * bool * list string) :=
  match input stdin with
  | inl e => inl e
  | inr (answer, stdin) =>
      let alpha_matting_input := lower (strip answer) in
      let alpha_matting := negb (String.eqb alpha_matting_input "n") in
      match input stdin with
      | inl e => inl e
      | inr (answer, stdin) =>
          let mask_only_input := lower (strip answer) in
          let only_mask := String.eqb mask_only_input "y" in
          inr (alpha_matting, only_mask, stdin)
      end
  end.

(** ** The batch driver

    A path is kept as the parts the program uses.  What the program prints
    is kept as the kind of each message and its arguments; elapsed times are
    left out. *)

Record Path : Type := { parent : string; stem : string; suffix : string }.

Definition name (p : Path) : string := stem p +:+ suffix p.

Inductive output : Type :=
| Progress (i n : nat)
| Processing (file : string)
| Done
| Failed (e : Exception).

Section Driver.

(** The state of the collaborators (files, the model session) and the
    session handle. *)
Variables W Session : Type.

Record world : Type := { ext : W; stdout : list output }.

(** A step of the driver: it may return, raise an [Exception], or be
    interrupted, and it changes the world. *)
Definition P (A : Type) : Type := world -> (BaseException + A) * world.

#[local] Instance P_ret : MRet P := fun A x w => (inr x, w).
#[local] Instance P_bind : MBind P := fun A B f m w =>
  match m w with
  | (inl e, w') => (inl e, w')
  | (inr x, w') => f x w'
  end.

Definition print (o : output) : P unit := fun w =>
  (inr tt, {| ext := ext w; stdout := stdout w ++ [o] |}).

(** A call of a collaborator, and the result of a call of this program's
    own pixel code. *)
Definition call {A} (f : W -> (BaseException + A) * W) : P A := fun w =>
  let '(r, x) := f (ext w) in (r, {| ext := x; stdout := stdout w |}).

Definition lift {A} (r : Exception + A) : P A := fun w =>
  match r with
  | inl e => (inl (Exc e), w)
  | inr a => (inr a, w)
  end.

(** [try: body except Exception as e: handler e]. *)
Definition try_except {A} (body : P A) (handler : Exception -> P A) : P A :=
  fun w =>
  match body w with
  | (inl (Exc e), w') => handler e w'
  | r => r
  end.

(** [Image.open], rembg's [remove] and [Image.save]. *)
Variable Image_open : Path -> W -> (BaseException + Image) * W.
Variable remove :
  Image -> Session -> bool -> Z -> Z -> Z -> bool ->
  W -> (BaseException + Image) * W.
Variable save : Image -> Path -> string -> bool -> W -> (BaseException + unit) * W.
Variable convert_RGBA : Image -> Image.

Definition process_image_advanced (input_path : Path) (output_path : string)
  (session : Session) (alpha_matting only_mask : bool)
  : P (bool * option Path) :=
  try_except
    (print (Processing (name input_path));;
     input_image ← call (Image_open input_path);
     output_image ←
       call (remove input_image session alpha_matting 240 10 10 only_mask);
     output_image ← lift (ensure_transparency convert_RGBA output_image);
     let output_file :=
       {| parent := output_path;
          stem := stem input_path +:+ "_no_bg";
          suffix := ".png" |} in
     call (save output_image output_file "PNG" true);;
     print Done;;
     mret (true, Some output_file))
    (fun e =>
     print (Failed e);;
     mret (false, None)).

(** The [for] loop of [main], from image number [i] on. *)
Fixpoint for_images (output_path : string) (session : Session)
  (alpha_matting only_mask : bool) (total i : nat) (images : list Path)
  (successful failed : nat) : P (nat * nat) :=
  match images with
  | [] => mret (successful, failed)
  | image_path :: images =>
      print (Progress i total);;
      '(success, output_file) ←
        process_image_advanced image_path output_path session
                               alpha_matting only_mask;
      if success : bool
      then for_images output_path session alpha_matting only_mask total (S i)
                      images (S successful) failed
      else for_images output_path session alpha_matting only_mask total (S i)
                      images successful (S failed)
  end.

Definition main_loop (output_path : string) (session : Session)
  (alpha_matting only_mask : bool) (images : list Path) : P (nat * nat) :=
  for_images output_path session alpha_matting only_mask
             (length images) 1 images 0 0.

End Driver.

Arguments ext {W} _.
Arguments stdout {W} _.
Arguments Build_world {W} _ _.

(** The messages of a run that count: files started, successes, failures. *)
Definition started (out : list output) : list string :=
  omap (fun o => match o with Processing f => Some f | _ => None end) out.
Definition is_done (o : output) : bool :=
  match o with Done => true | _ => false end.
Definition is_failed (o : output) : bool :=
  match o with Failed _ => true | _ => false end.
Definition count_done (out : list output) : nat :=
  length (List.filter is_done out).
Definition count_failed (out : list output) : nat :=
  length (List.filter is_failed out).

(** What the loop prints for a batch whose images end in the messages
    [results], the first image being number [i] of [total]. *)
Fixpoint batch_output (total i : nat) (images : list Path)
  (results : list output) : list output :=
  match images, results with
  | p :: images, o :: results =>
      Progress i total :: Processing (name p) :: o
      :: batch_output total (S i) images results
  | _, _ => []
  end.

Section Raises.

Variables W Session : Type.
Variable Image_open : Path -> W -> (BaseException + Image) * W.
Variable remove :
  Image -> Session -> bool -> Z -> Z -> Z -> bool ->
  W -> (BaseException + Image) * W.
Variable save : Image -> Path -> string -> bool -> W -> (BaseException + unit) * W.
Variable convert_RGBA : Image -> Image.

(** The four calls in the [try] block of [process_image_advanced], in the
    order of the source.  [raises p ... x e x'] : started in state [x], one
    of them raises the [Exception] [e], the calls before it having returned,
    and leaves the state [x'].  [succeeds p ... x f x'] : all four return,
    and the file [f] is written. *)
Inductive raises (input_path : Path) (output_path : string)
  (session : Session) (alpha_matting only_mask : bool) (x : W)
  : Exception -> W -> Prop :=
| raises_decode e x' :
    Image_open input_path x = (inl (Exc e), x') ->
    raises input_path output_path session alpha_matting only_mask x e x'
| raises_model img x1 e x' :
    Image_open input_path x = (inr img, x1) ->
    remove img session alpha_matting 240 10 10 only_mask x1
    = (inl (Exc e), x') ->
    raises input_path output_path session alpha_matting only_mask x e x'
| raises_refinement img x1 img2 x2 e :
    Image_open input_path x = (inr img, x1) ->
    remove img session alpha_matting 240 10 10 only_mask x1 = (inr img2, x2) ->
    ensure_transparency convert_RGBA img2 = inl e ->
    raises input_path output_path session alpha_matting only_mask x e x2
| raises_encode img x1 img2 x2 img3 e x' :
    Image_open input_path x = (inr img, x1) ->
    remove img session alpha_matting 240 10 10 only_mask x1 = (inr img2, x2) ->
    ensure_transparency convert_RGBA img2 = inr img3 ->
    save img3 {| parent := output_path;
                 stem := stem input_path +:+ "_no_bg";
                 suffix := ".png" |} "PNG" true x2 = (inl (Exc e), x') ->
    raises input_path output_path session alpha_matting only_mask x e x'.

Inductive succeeds (input_path : Path) (output_path : string)
  (session : Session) (alpha_matting only_mask : bool) (x : W)
  : Path -> W -> Prop :=
| succeeds_all img x1 img2 x2 img3 x' :
    Image_open input_path x = (inr img, x1) ->
    remove img session alpha_matting 240 10 10 only_mask x1 = (inr img2, x2) ->
    ensure_transparency convert_RGBA img2 = inr img3 ->
    save img3 {| parent := output_path;
                 stem := stem input_path +:+ "_no_bg";
                 suffix := ".png" |} "PNG" true x2 = (inr tt, x') ->
    succeeds input_path output_path session alpha_matting only_mask x
             {| parent := output_path;
                stem := stem input_path +:+ "_no_bg";
                suffix := ".png" |} x'.

End Raises.

(** Sample collaborators for a batch of three files: the second does not
    decode and the third cannot be written.  The state counts files written. *)
Definition sample_open (p : Path) (x : nat) : (BaseException + Image) * nat :=
  if String.eqb (stem p) "broken"
  then (inl (Exc (Error "cannot identify image file")), x)
  else (inr sample, x).

Definition sample_remove (img : Image) (session : unit) (alpha_matting : bool)
  (fg bg er : Z) (only_mask : bool) (x : nat) : (BaseException + Image) * nat :=
  (inr img, x).

Definition sample_save (img : Image) (p : Path) (fmt : string) (optimize : bool)
  (x : nat) : (BaseException + unit) * nat :=
  if String.eqb (stem p) "locked_no_bg"
  then (inl (Exc (Error "permission denied")), x)
  else (inr tt, S x).

Definition sample_images : list Path :=
  [ {| parent := "input"; stem := "a"; suffix := ".jpg" |};
    {| parent := "input"; stem := "broken"; suffix := ".png" |};
    {| parent := "input"; stem := "locked"; suffix := ".webp" |} ].

(** ** Configuration *)

Definition INPUT_FOLDER : string := "input".
Definition OUTPUT_FOLDER : string := "output".

Definition SUPPORTED_FORMATS : gset string :=
  {[ ".jpg"; ".jpeg"; ".png"; ".bmp"; ".tiff"; ".webp" ]}.

Module Model.
Record t : Type := { name : string; description : string }.
End Model.

(** The dictionary [MODELS], from its literal. *)
Definition MODELS_items : list (string * Model.t) :=
  [ ("1", {| Model.name := "u2net";
             Model.description := "Default - Good balance of speed and quality" |});
    ("2", {| Model.name := "u2netp";
             Model.description := "Lightweight - Faster but lower quality" |});
    ("3", {| Model.name := "u2net_human_seg";
             Model.description := "People - Optimized for human subjects" |});
    ("4", {| Model.name := "u2net_cloth_seg";
             Model.description := "Clothing - Best for fashion/clothing" |});
    ("5", {| Model.name := "isnet-general-use";
             Model.description := "High Quality - Best overall quality (slower)" |}) ].

Definition MODELS : gmap string Model.t := list_to_map MODELS_items.

(** ** Scanning the input folder

    [iterdir] yields the entries of one folder, in no particular order; an
    entry is kept with the answer [is_file] gives for it.  Paths of one
    folder compare as their names do, and strings compare by code point. *)

Record DirEntry : Type := { file : Path; is_file : bool }.

Definition supported (e : DirEntry) : bool :=
  is_file e && bool_decide (lower (suffix (file e)) ∈ SUPPORTED_FORMATS).

Definition path_le (p q : Path) : Prop := String.leb (name p) (name q) = true.

#[global] Instance path_le_dec (p q : Path) : Decision (path_le p q).
Proof. unfold path_le. apply _. Defined.

(** [get_images_to_process], on what [input_path.iterdir()] yields.  The names
    in one folder are distinct, so the sorted list does not depend on the
    sorting method. *)
Definition get_images_to_process (listing : list DirEntry) : list Path :=
  let images := file <$> List.filter supported listing in
  merge_sort path_le images.

(** ** Choosing the model

    The loop asks again after an invalid answer; it ends with the first
    valid one, or with [EOFError] when standard input runs out. *)

Definition choice_of (line : string) : string :=
  match strip line with
  | EmptyString => "1"
  | s => s
  end.

Fixpoint select_model (stdin : list string) : Exception + (string * list string) :=
  match stdin with
  | [] => inl (Error "EOFError")
  | line :: stdin =>
      let choice := choice_of line in
      match MODELS !! choice with
      | Some m => inr (Model.name m, stdin)
      | None => select_model stdin
      end
  end.

(** A string of white space only. *)
Fixpoint all_space (s : string) : bool :=
  match s with
  | EmptyString => true
  | String c s' => isspace c && all_space s'
  end.

(** ** The main function and the entry point

    The state of a run is the state of the collaborators together with the
    lines still waiting on standard input.  Banners, the menu and the
    summary are output only and are left out. *)

#[local] Existing Instance P_ret.
#[local] Existing Instance P_bind.

Section Main.

Variables W Session : Type.

Definition console : Type := (W * list string)%type.

(** A collaborator leaves standard input alone. *)
Definition on_ext {A} (f : W -> (BaseException + A) * W)
  : console -> (BaseException + A) * console := fun c =>
  let '(r, x) := f c.1 in (r, (x, c.2)).

(** A prompt function reads lines; after [EOFError] none is left. *)
Definition on_stdin {A} (f : list string -> Exception + (A * list string))
  : console -> (BaseException + A) * console := fun c =>
  match f c.2 with
  | inl e => (inl (Exc e), (c.1, []))
  | inr (a, stdin) => (inr a, (c.1, stdin))
  end.

(** [Path(p).mkdir(exist_ok=True)], [Path(p).iterdir()] with [is_file],
    rembg's [new_session], and the collaborators of the loop. *)
Variable mkdir : string -> W -> (BaseException + unit) * W.
Variable iterdir : string -> W -> (BaseException + list DirEntry) * W.
Variable new_session : string -> W -> (BaseException + Session) * W.
Variable Image_open : Path -> W -> (BaseException + Image) * W.
Variable remove :
  Image -> Session -> bool -> Z -> Z -> Z -> bool ->
  W -> (BaseException + Image) * W.
Variable save : Image -> Path -> string -> bool -> W -> (BaseException + unit) * W.
Variable convert_RGBA : Image -> Image.

Definition ensure_folders_exist : P console unit :=
  call console (on_ext (mkdir INPUT_FOLDER));;
  call console (on_ext (mkdir OUTPUT_FOLDER)).

Definition main : P console unit :=
  ensure_folders_exist;;
  listing ← call console (on_ext (iterdir INPUT_FOLDER));
  let images := get_images_to_process listing in
  match images with
  | [] => mret tt
  | _ :: _ =>
      model_name ← call console (on_stdin select_model);
      '(alpha_matting, only_mask) ← call console (on_stdin select_options);
      session ← call console (on_ext (new_session model_name));
      let output_path := OUTPUT_FOLDER in
      '(successful, failed) ←
        main_loop console Session
                  (fun p => on_ext (Image_open p))
                  (fun img s am fg bg er om => on_ext (remove img s am fg bg er om))
                  (fun img p fmt opt => on_ext (save img p fmt opt))
                  convert_RGBA
                  output_path session alpha_matting only_mask images;
      mret tt
  end.

(** The [__main__] block: the exit status of the process. *)
Definition script (w : world console) : Z * world console :=
  match main w with
  | (inr _, w') => (0, w')
  | (inl KeyboardInterrupt, w') => (1, w')
  | (inl (Exc e), w') => (1, w')
  end.

End Main.

(** Sample collaborators for a whole run: an input folder that holds the
    three sample files, a text file and a sub-folder. *)
Definition sample_listing : list DirEntry :=
  [ {| file := {| parent := "input"; stem := "locked"; suffix := ".webp" |};
       is_file := true |};
    {| file := {| parent := "input"; stem := "notes"; suffix := ".txt" |};
       is_file := true |};
    {| file := {| parent := "input"; stem := "a"; suffix := ".jpg" |};
       is_file := true |};
    {| file := {| parent := "input"; stem := "archive"; suffix := ".png" |};
       is_file := false |};
    {| file := {| parent := "input"; stem := "broken"; suffix := ".png" |};
       is_file := true |} ].

Definition sample_mkdir (p : string) (x : nat) : (BaseException + unit) * nat :=
  (inr tt, x).

Definition sample_iterdir (p : string) (x : nat)
  : (BaseException + list DirEntry) * nat :=
  (inr sample_listing, x).

Definition sample_new_session (model_name : string) (x : nat)
  : (BaseException + unit) * nat :=
  (inr tt, x).

(** * Properties of the array operations *)

Section Elementwise.
Context {A B C D : Type}.

Lemma ew1_ew1 (f : B -> C) (g : A -> B) (a : list (list A)) :
  np.ew1 f (np.ew1 g a) = np.ew1 (fun x => f (g x)) a.
Proof.
  unfold np.ew1. rewrite <- list_fmap_compose. apply list_fmap_ext.
  intros _ row _. simpl. by rewrite <- list_fmap_compose.
Qed.

Lemma ew2_ew1_ew1 (f : B -> C -> D) (g : A -> B) (h : A -> C)
  (a : list (list A)) :
  np.ew2 f (np.ew1 g a) (np.ew1 h a) = np.ew1 (fun x => f (g x) (h x)) a.
Proof.
  unfold np.ew1, np.ew2.
  rewrite zip_with_fmap_l, zip_with_fmap_r, zip_with_diag.
  apply list_fmap_ext. intros _ row _.
  by rewrite zip_with_fmap_l, zip_with_fmap_r, zip_with_diag.
Qed.

Lemma ew2_ew1_l (f : B -> A -> C) (g : A -> B) (a : list (list A)) :
  np.ew2 f (np.ew1 g a) a = np.ew1 (fun x => f (g x) x) a.
Proof.
  unfold np.ew1, np.ew2.
  rewrite zip_with_fmap_l, zip_with_diag.
  apply list_fmap_ext. intros _ row _.
  by rewrite zip_with_fmap_l, zip_with_diag.
Qed.

Lemma ew1_ext (P : A -> Prop) (f g : A -> B) (a : list (list A)) :
  (forall x, P x -> f x = g x) ->
  Forall (Forall P) a -> np.ew1 f a = np.ew1 g a.
Proof.
  intros E Ha. unfold np.ew1. apply list_fmap_ext. intros i row Hrow.
  apply list_fmap_ext. intros j x Hx. apply E.
  rewrite Forall_lookup in Ha. specialize (Ha i row Hrow).
  rewrite Forall_lookup in Ha. exact (Ha j x Hx).
Qed.

Lemma item_ew1 (f : A -> B) (a : list (list A)) (i j : nat) :
  np.item (np.ew1 f a) i j = f <$> np.item a i j.
Proof.
  unfold np.item, np.ew1. rewrite list_lookup_fmap.
  destruct (a !! i) as [row|]; simpl; [apply list_lookup_fmap | done].
Qed.

End Elementwise.

Lemma pixel_at_ew1 f d i j : pixel_at (np.ew1 f d) i j = f <$> pixel_at d i j.
Proof. apply item_ew1. Qed.

Lemma shape_ew1 (f : list Z -> list Z) d : shape (np.ew1 f d) = shape d.
Proof.
  unfold shape, np.ew1. rewrite <- list_fmap_compose.
  apply list_fmap_ext. intros _ row _. simpl. apply length_fmap.
Qed.

(** Pixel predicates over a whole array, as the run-time checks see them. *)
Lemma forallb2_Forall2 {A} (p : A -> bool) (P : A -> Prop) (a : list (list A)) :
  (forall x, P x -> p x = true) ->
  Forall (Forall P) a -> forallb (forallb p) a = true.
Proof.
  intros HpP Ha. apply forallb_forall. intros row Hrow.
  apply forallb_forall. intros x Hx.
  apply HpP. rewrite Forall_forall in Ha.
  apply list_elem_of_In in Hrow, Hx.
  specialize (Ha row Hrow). rewrite Forall_forall in Ha. auto.
Qed.

Lemma Forall2_ew1 {A B} (P : A -> Prop) (Q : B -> Prop) (f : A -> B) a :
  (forall x, P x -> Q (f x)) ->
  Forall (Forall P) a -> Forall (Forall Q) (np.ew1 f a).
Proof.
  intros HPQ Ha. unfold np.ew1. apply Forall_fmap.
  eapply Forall_impl; [exact Ha|]. intros row Hrow. simpl.
  apply Forall_fmap. eapply Forall_impl; [exact Hrow|]. auto.
Qed.

Lemma well_formed_four_channels d : well_formed d -> four_channels d.
Proof.
  intros H. eapply Forall_impl; [exact H|]. intros row Hrow.
  eapply Forall_impl; [exact Hrow|]. by intros px [? _].
Qed.

Lemma four_channels_are d : four_channels d -> np.channels_are 4 d = true.
Proof.
  apply forallb2_Forall2. intros px ->. reflexivity.
Qed.

Lemma four_channels_has c d :
  (c < 4)%nat -> four_channels d -> np.has_channel c d = true.
Proof.
  intros Hc. apply forallb2_Forall2. intros px ->.
  apply Nat.ltb_lt. exact Hc.
Qed.

(** * The passes, pixel by pixel *)

Lemma near_white_px_length px :
  length px = 4%nat -> length (near_white_px px) = 4%nat.
Proof. intros H. unfold near_white_px. by destruct (white_pixels_at px). Qed.

Lemma low_alpha_px_length px : length (low_alpha_px px) = length px.
Proof.
  unfold low_alpha_px. destruct (semi_transparent_at px); [|done].
  apply length_insert.
Qed.

Lemma edge_cleanup_px_length px : length (edge_cleanup_px px) = length px.
Proof.
  unfold edge_cleanup_px. destruct (edge_white_at px); [|done].
  apply length_insert.
Qed.

Lemma near_white_pass_run d :
  four_channels d ->
  near_white_pass rgba_views d = inr (tt, np.ew1 near_white_px d).
Proof.
  intros H. unfold near_white_pass, mbind, np.M_bind. simpl.
  unfold np.setitem_mask. simpl length.
  rewrite (four_channels_are d H).
  unfold np.and_, np.gt. rewrite !ew1_ew1, !ew2_ew1_ew1, ew2_ew1_l.
  reflexivity.
Qed.

Lemma low_alpha_pass_run d :
  four_channels d ->
  low_alpha_pass rgba_views d = inr (tt, np.ew1 low_alpha_px d).
Proof.
  intros H. unfold low_alpha_pass, mbind, np.M_bind. simpl.
  unfold np.setitem_mask_channel.
  rewrite (four_channels_has 3 d) by (lia || done).
  unfold np.lt. rewrite ew1_ew1, ew2_ew1_l. reflexivity.
Qed.

Lemma edge_cleanup_pass_run d :
  four_channels d ->
  edge_cleanup_pass rgba_views d = inr (tt, np.ew1 edge_cleanup_px d).
Proof.
  intros H. unfold edge_cleanup_pass, mbind, np.M_bind. simpl.
  unfold np.setitem_mask_channel.
  rewrite (four_channels_has 3 d) by (lia || done).
  unfold np.and_, np.gt, np.lt, np.gtQ, np.true_divide, np.add.
  rewrite !ew1_ew1, !ew2_ew1_ew1, !ew1_ew1, !ew2_ew1_ew1, ew2_ew1_l.
  reflexivity.
Qed.

Lemma four_channels_near_white d :
  four_channels d -> four_channels (np.ew1 near_white_px d).
Proof. apply Forall2_ew1. apply near_white_px_length. Qed.

Lemma four_channels_low_alpha d :
  four_channels d -> four_channels (np.ew1 low_alpha_px d).
Proof. apply Forall2_ew1. intros px. by rewrite low_alpha_px_length. Qed.

Lemma four_channels_edge_cleanup d :
  four_channels d -> four_channels (np.ew1 edge_cleanup_px d).
Proof. apply Forall2_ew1. intros px. by rewrite edge_cleanup_px_length. Qed.

Lemma getitem_channel_run c d :
  (c < 4)%nat -> four_channels d ->
  np.getitem_channel c d = inr (np.Channel c, d).
Proof.
  intros Hc H. unfold np.getitem_channel. by rewrite four_channels_has.
Qed.

Lemma refine_run d :
  four_channels d -> refine d = inr (tt, np.ew1 refine_px d).
Proof.
  intros H. unfold refine, mbind, np.M_bind.
  rewrite !getitem_channel_run by (lia || done).
  fold rgba_views.
  rewrite (near_white_pass_run d H).
  rewrite (low_alpha_pass_run _ (four_channels_near_white d H)).
  rewrite (edge_cleanup_pass_run _
             (four_channels_low_alpha _ (four_channels_near_white d H))).
  by rewrite !ew1_ew1.
Qed.

(** * One pixel through the three passes *)

(** A wrapped sum of [uint8] values stays below 256, so its third never
    exceeds 200: the edge mask is false everywhere. *)
Lemma edge_white_at_false px : edge_white_at px = false.
Proof.
  unfold edge_white_at.
  set (s := ((chan 0 px + chan 1 px) mod 256 + chan 2 px) mod 256).
  assert (Hs : 0 <= s < 256) by (apply Z.mod_pos_bound; lia).
  unfold Qle_bool, Qdiv, Qmult, Qinv, inject_Z. simpl.
  replace (s * 1 * 1 <=? 200 * Z.pos (1 * 3)) with true
    by (symmetry; apply Z.leb_le; lia).
  apply andb_false_r.
Qed.

Lemma edge_cleanup_px_id px : edge_cleanup_px px = px.
Proof. unfold edge_cleanup_px. by rewrite edge_white_at_false. Qed.

Lemma four_channels_inv (px : list Z) :
  length px = 4%nat -> exists r g b a, px = [r; g; b; a].
Proof.
  destruct px as [|r [|g [|b [|a [|? ?]]]]]; try discriminate.
  intros _. by exists r, g, b, a.
Qed.

Lemma near_white_px_cases r g b a :
  (240 < r /\ 240 < g /\ 240 < b /\
   near_white_px [r; g; b; a] = [255; 255; 255; 0]) \/
  ((r <= 240 \/ g <= 240 \/ b <= 240) /\
   near_white_px [r; g; b; a] = [r; g; b; a]).
Proof.
  unfold near_white_px, white_pixels_at, chan. simpl.
  destruct (Z.ltb_spec 240 r), (Z.ltb_spec 240 g), (Z.ltb_spec 240 b);
    simpl; auto 10.
Qed.

Lemma low_alpha_px_cases r g b a :
  (a < 50 /\ low_alpha_px [r; g; b; a] = [r; g; b; 0]) \/
  (50 <= a /\ low_alpha_px [r; g; b; a] = [r; g; b; a]).
Proof.
  unfold low_alpha_px, semi_transparent_at, chan. simpl.
  destruct (Z.ltb_spec a 50); auto.
Qed.

Lemma refine_px_cases r g b a :
  (240 < r /\ 240 < g /\ 240 < b /\
   refine_px [r; g; b; a] = [255; 255; 255; 0]) \/
  ((r <= 240 \/ g <= 240 \/ b <= 240) /\ a < 50 /\
   refine_px [r; g; b; a] = [r; g; b; 0]) \/
  ((r <= 240 \/ g <= 240 \/ b <= 240) /\ 50 <= a /\
   refine_px [r; g; b; a] = [r; g; b; a]).
Proof.
  unfold refine_px. rewrite edge_cleanup_px_id.
  destruct (near_white_px_cases r g b a) as [(?&?&?&->)|[? ->]].
  - left. repeat split; try done.
  - right. destruct (low_alpha_px_cases r g b a) as [[? ->]|[? ->]]; auto.
Qed.

Lemma refine_px_idem px :
  length px = 4%nat -> refine_px (refine_px px) = refine_px px.
Proof.
  intros H. destruct (four_channels_inv px H) as (r & g & b & a & ->).
  destruct (refine_px_cases r g b a) as [(?&?&?&->)|[(?&?&->)|(?&?&->)]].
  - reflexivity.
  - destruct (refine_px_cases r g b 0) as [(?&?&?&E)|[(?&?&E)|(?&?&E)]];
      try lia; done.
  - destruct (refine_px_cases r g b a) as [(?&?&?&E)|[(?&?&E)|(?&?&E)]];
      try lia; done.
Qed.

Lemma refine_px_rgba px : rgba_pixel px -> rgba_pixel (refine_px px).
Proof.
  intros [H U]. destruct (four_channels_inv px H) as (r & g & b & a & ->).
  destruct (refine_px_cases r g b a) as [(?&?&?&->)|[(?&?&->)|(?&?&->)]].
  - split; [done|]. rewrite !Forall_cons, !Forall_nil. unfold is_uint8. lia.
  - split; [done|]. revert U. rewrite !Forall_cons, !Forall_nil. unfold is_uint8. lia.
  - by split.
Qed.

(** * The whole function on a well-formed image *)

Lemma ensure_transparency_run convert_RGBA image :
  well_formed_image image ->
  ensure_transparency convert_RGBA image =
  inr (fromarray (np.ew1 refine_px (pixels image))).
Proof.
  intros [Hm Hd]. unfold ensure_transparency. rewrite Hm. simpl.
  unfold mbind, np.M_bind, np_array.
  by rewrite (refine_run _ (well_formed_four_channels _ Hd)).
Qed.

Lemma well_formed_refine d : well_formed d -> well_formed (np.ew1 refine_px d).
Proof. apply Forall2_ew1. apply refine_px_rgba. Qed.

Lemma well_formed_pixel_at d i j px :
  well_formed d -> pixel_at d i j = Some px -> rgba_pixel px.
Proof.
  unfold pixel_at, np.item. intros Hd H.
  destruct (d !! i) as [row|] eqn:Hrow; [|discriminate].
  simpl in H. unfold well_formed in Hd. rewrite Forall_lookup in Hd.
  specialize (Hd i row Hrow). rewrite Forall_lookup in Hd. eauto.
Qed.

Lemma well_formed_near_white d :
  well_formed d -> well_formed (np.ew1 near_white_px d).
Proof.
  apply Forall2_ew1. intros px [H U].
  destruct (four_channels_inv px H) as (r & g & b & a & ->).
  destruct (near_white_px_cases r g b a) as [(?&?&?&->)|[? ->]].
  - split; [done|]. rewrite !Forall_cons, !Forall_nil. unfold is_uint8. lia.
  - by split.
Qed.

Lemma well_formed_low_alpha d :
  well_formed d -> well_formed (np.ew1 low_alpha_px d).
Proof.
  apply Forall2_ew1. intros px [H U].
  destruct (four_channels_inv px H) as (r & g & b & a & ->).
  destruct (low_alpha_px_cases r g b a) as [[? ->]|[? ->]].
  - split; [done|]. revert U. rewrite !Forall_cons, !Forall_nil.
    unfold is_uint8. lia.
  - by split.
Qed.

Ltac solve_well_formed :=
  repeat first [apply Forall_nil_2 | apply Forall_cons_2 | split];
  try reflexivity; unfold is_uint8; lia.

(** * The claims about the transparency refiner *)

(** Claim C2.  Pass 1 (near-white suppression).  On every well-formed array the
    pass returns, and every pixel whose red, green and blue values are all
    strictly above 240 becomes exactly (255, 255, 255, 0); a pixel with one
    of them at most 240 is left as it was.  At the boundary, (241, 241, 241,
    255) becomes (255, 255, 255, 0), and a pixel with R = G = B = 240 is not
    touched by the pass.  Such a near-white pixel is still (255, 255, 255, 0)
    when the three passes are over. *)
Theorem near_white_suppression (d : np.buffer) :
  well_formed d ->
  exists d1,
    near_white_pass rgba_views d = inr (tt, d1) /\
    (forall i j r g b a,
        pixel_at d i j = Some [r; g; b; a] ->
        240 < r -> 240 < g -> 240 < b ->
        pixel_at d1 i j = Some [255; 255; 255; 0]) /\
    (forall i j r g b a,
        pixel_at d i j = Some [r; g; b; a] ->
        r <= 240 \/ g <= 240 \/ b <= 240 ->
        pixel_at d1 i j = Some [r; g; b; a]) /\
    (forall i j,
        pixel_at d i j = Some [241; 241; 241; 255] ->
        pixel_at d1 i j = Some [255; 255; 255; 0]) /\
    (forall i j a,
        pixel_at d i j = Some [240; 240; 240; a] ->
        pixel_at d1 i j = Some [240; 240; 240; a]) /\
    exists d3,
      refine d = inr (tt, d3) /\
      forall i j r g b a,
        pixel_at d i j = Some [r; g; b; a] ->
        240 < r -> 240 < g -> 240 < b ->
        pixel_at d3 i j = Some [255; 255; 255; 0].
Proof.
  intros Hd. exists (np.ew1 near_white_px d).
  split; [apply near_white_pass_run, well_formed_four_channels, Hd|].
  assert (Hf : forall i j r g b a,
             pixel_at d i j = Some [r; g; b; a] ->
             240 < r -> 240 < g -> 240 < b ->
             pixel_at (np.ew1 refine_px d) i j = Some [255; 255; 255; 0]).
  { intros i j r g b a H Hr Hg Hb. rewrite pixel_at_ew1, H. simpl.
    destruct (refine_px_cases r g b a) as [(?&?&?&->)|[(?&?&?)|(?&?&?)]];
      [done | lia..]. }
  assert (Hw : forall i j r g b a,
             pixel_at d i j = Some [r; g; b; a] ->
             240 < r -> 240 < g -> 240 < b ->
             pixel_at (np.ew1 near_white_px d) i j = Some [255; 255; 255; 0]).
  { intros i j r g b a H Hr Hg Hb. rewrite pixel_at_ew1, H. simpl.
    destruct (near_white_px_cases r g b a) as [(?&?&?&->)|[? ?]];
      [done | lia]. }
  assert (Hn : forall i j r g b a,
             pixel_at d i j = Some [r; g; b; a] ->
             r <= 240 \/ g <= 240 \/ b <= 240 ->
             pixel_at (np.ew1 near_white_px d) i j = Some [r; g; b; a]).
  { intros i j r g b a H Hle. rewrite pixel_at_ew1, H. simpl.
    destruct (near_white_px_cases r g b a) as [(?&?&?&?)|[? ->]];
      [lia | done]. }
  split; [exact Hw|]. split; [exact Hn|].
  split; [intros i j H; apply (Hw i j _ _ _ _ H); lia|].
  split; [intros i j a H; apply (Hn i j _ _ _ _ H); lia|].
  exists (np.ew1 refine_px d).
  split; [apply refine_run, well_formed_four_channels, Hd | exact Hf].
Qed.

Lemma near_white_suppression_witness :
  well_formed (pixels sample) /\
  exists d1,
    near_white_pass rgba_views (pixels sample) = inr (tt, d1) /\
    pixel_at d1 0 0 = Some [255; 255; 255; 0] /\
    pixel_at d1 0 1 = Some [10; 10; 10; 255].
Proof.
  assert (Hd : well_formed (pixels sample)) by solve_well_formed.
  split; [exact Hd|].
  destruct (near_white_suppression (pixels sample) Hd)
    as (d1 & E & Hw & Hn & _).
  exists d1. split; [exact E|]. split.
  - apply (Hw 0%nat 0%nat 250 250 250 255); [reflexivity | lia..].
  - apply (Hn 0%nat 1%nat 10 10 10 255); [reflexivity | lia].
Defined.

(** Claim C3.  Pass 2 (low-alpha snapping).  On every well-formed array passes 1
    and 2 return, and every pixel whose alpha after pass 1 is strictly below
    50 has alpha 0 after pass 2, with the red, green and blue values of the
    pass-1 output; a pixel with alpha at least 50 is left as it was. *)
Theorem low_alpha_snapping (d : np.buffer) :
  well_formed d ->
  exists d1 d2,
    near_white_pass rgba_views d = inr (tt, d1) /\
    low_alpha_pass rgba_views d1 = inr (tt, d2) /\
    (forall i j r g b a,
        pixel_at d1 i j = Some [r; g; b; a] ->
        a < 50 ->
        pixel_at d2 i j = Some [r; g; b; 0]) /\
    (forall i j r g b a,
        pixel_at d1 i j = Some [r; g; b; a] ->
        50 <= a ->
        pixel_at d2 i j = Some [r; g; b; a]).
Proof.
  intros Hd. pose proof (well_formed_four_channels d Hd) as H4.
  exists (np.ew1 near_white_px d), (np.ew1 low_alpha_px (np.ew1 near_white_px d)).
  split; [by apply near_white_pass_run|].
  split; [by apply low_alpha_pass_run, four_channels_near_white|].
  split; intros i j r g b a H Ha; rewrite pixel_at_ew1, H; simpl;
    destruct (low_alpha_px_cases r g b a) as [[? ->]|[? ->]]; done || lia.
Qed.

Lemma low_alpha_snapping_witness :
  well_formed (pixels sample) /\
  exists d1 d2,
    near_white_pass rgba_views (pixels sample) = inr (tt, d1) /\
    low_alpha_pass rgba_views d1 = inr (tt, d2) /\
    pixel_at d2 1 0 = Some [0; 0; 0; 0].
Proof.
  assert (Hd : well_formed (pixels sample)) by solve_well_formed.
  split; [exact Hd|].
  destruct (low_alpha_snapping (pixels sample) Hd)
    as (d1 & d2 & E1 & E2 & Hlow & _).
  exists d1, d2. split; [exact E1|]. split; [exact E2|].
  apply (Hlow 1%nat 0%nat 0 0 0 30); [|lia].
  vm_compute in E1. injection E1 as <-. reflexivity.
Defined.

(** Claim C4.  Pass sequencing.  On every well-formed array the function runs
    pass 1, then pass 2 on the array pass 1 left, then pass 3 on the array
    pass 2 left, and returns what pass 3 left.  A pixel whose alpha pass 1
    set to 0 (it was near-white) or pass 2 set to 0 (its alpha after pass 1
    was below 50) has alpha 0 when pass 3 starts, is outside the
    [edge_pixels] mask pass 3 computes from the alpha view, and is left
    untouched by pass 3. *)
Theorem pass_sequencing (d : np.buffer) :
  well_formed d ->
  exists d1 d2 d3,
    near_white_pass rgba_views d = inr (tt, d1) /\
    low_alpha_pass rgba_views d1 = inr (tt, d2) /\
    edge_cleanup_pass rgba_views d2 = inr (tt, d3) /\
    refine d = inr (tt, d3) /\
    forall i j p0 p1,
      pixel_at d i j = Some p0 ->
      pixel_at d1 i j = Some p1 ->
      white_pixels_at p0 = true \/ chan 3 p1 < 50 ->
      exists p2 a,
        pixel_at d2 i j = Some p2 /\
        chan 3 p2 = 0 /\
        np.load (alpha rgba_views) d2 = inr (a, d2) /\
        np.item (np.and_ (np.gt a 0) (np.lt a 200)) i j = Some false /\
        pixel_at d3 i j = Some p2.
Proof.
  intros Hd. pose proof (well_formed_four_channels d Hd) as H4.
  pose proof (four_channels_near_white d H4) as H41.
  pose proof (four_channels_low_alpha _ H41) as H42.
  exists (np.ew1 near_white_px d),
         (np.ew1 low_alpha_px (np.ew1 near_white_px d)),
         (np.ew1 edge_cleanup_px
                 (np.ew1 low_alpha_px (np.ew1 near_white_px d))).
  split; [by apply near_white_pass_run|].
  split; [by apply low_alpha_pass_run|].
  split; [by apply edge_cleanup_pass_run|].
  split; [by rewrite refine_run, !ew1_ew1|].
  intros i j p0 p1 H0 H1 Hz.
  assert (E1 : p1 = near_white_px p0).
  { rewrite pixel_at_ew1, H0 in H1. simpl in H1. congruence. }
  destruct (well_formed_pixel_at d i j p0 Hd H0) as [L0 _].
  destruct (four_channels_inv p0 L0) as (r & g & b & a & ->).
  assert (Ha1 : chan 3 p1 < 50).
  { destruct Hz as [Hw|Hlt]; [|exact Hlt].
    subst p1. unfold near_white_px. rewrite Hw. unfold chan. simpl. lia. }
  assert (L1 : exists r1 g1 b1 a1, p1 = [r1; g1; b1; a1]).
  { apply four_channels_inv. subst p1. by apply near_white_px_length. }
  destruct L1 as (r1 & g1 & b1 & a1 & Ep1).
  rewrite Ep1 in Ha1. unfold chan in Ha1. simpl in Ha1.
  exists [r1; g1; b1; 0], (np.ew1 (fun px => nth 3 px 0)
                               (np.ew1 low_alpha_px (np.ew1 near_white_px d))).
  assert (E2 : pixel_at (np.ew1 low_alpha_px (np.ew1 near_white_px d)) i j
               = Some [r1; g1; b1; 0]).
  { rewrite pixel_at_ew1, H1, Ep1. simpl.
    destruct (low_alpha_px_cases r1 g1 b1 a1) as [[? ->]|[? ?]]; [done|lia]. }
  split; [exact E2|]. split; [reflexivity|]. split; [reflexivity|]. split.
  - unfold np.and_, np.gt, np.lt. rewrite ew2_ew1_ew1, ew1_ew1, item_ew1.
    fold (pixel_at (np.ew1 low_alpha_px (np.ew1 near_white_px d)) i j).
    rewrite E2. reflexivity.
  - rewrite pixel_at_ew1, E2. simpl. by rewrite edge_cleanup_px_id.
Qed.

Lemma pass_sequencing_witness :
  well_formed (pixels sample) /\
  exists d3,
    refine (pixels sample) = inr (tt, d3) /\
    pixel_at d3 0 0 = Some [255; 255; 255; 0] /\
    pixel_at d3 1 0 = Some [0; 0; 0; 0].
Proof.
  assert (Hd : well_formed (pixels sample)) by solve_well_formed.
  split; [exact Hd|].
  destruct (pass_sequencing (pixels sample) Hd)
    as (d1 & d2 & d3 & E1 & E2 & E3 & E & Hz).
  exists d3. split; [exact E|].
  vm_compute in E1. injection E1 as <-.
  vm_compute in E2. injection E2 as <-.
  split.
  - destruct (Hz 0%nat 0%nat [250; 250; 250; 255] [255; 255; 255; 0])
      as (p2 & a & H2 & _ & _ & _ & H3); [reflexivity.. | by left |].
    rewrite H3, <- H2. reflexivity.
  - destruct (Hz 1%nat 0%nat [0; 0; 0; 30] [0; 0; 0; 30])
      as (p2 & a & H2 & _ & _ & _ & H3);
      [reflexivity.. | right; unfold chan; simpl; lia |].
    rewrite H3, <- H2. reflexivity.
Defined.

(** The extent of the wrap-around: pass 3 changes no array at all. *)
Lemma edge_cleanup_pass_changes_nothing d :
  four_channels d -> edge_cleanup_pass rgba_views d = inr (tt, d).
Proof.
  intros H. rewrite edge_cleanup_pass_run by done. do 2 f_equal.
  unfold np.ew1. rewrite <- (list_fmap_id d) at 2.
  apply list_fmap_ext. intros _ row _. simpl.
  rewrite <- (list_fmap_id row) at 2.
  apply list_fmap_ext. intros _ px _. apply edge_cleanup_px_id.
Qed.

(** Claim C1.  Pass 3 (edge cleanup) does not do what is claimed.  The pixel
    (210, 210, 200, 120) has alpha strictly between 0 and 200 and a mean of
    red, green and blue above 200, so the claim sets its alpha to 0.  The
    program adds the three [uint8] channels in [uint8]: the sum wraps to
    108, a third of it is 36, the mask is false and the pixel keeps alpha
    120, in pass 3 and in the whole function. *)
Theorem edge_cleanup_misses_bright_edge (convert_RGBA : Image -> Image) :
  let px := [210; 210; 200; 120] in
  let image := {| mode := "RGBA"; pixels := [[px]] |} in
  (0 < chan 3 px < 200 /\ 3 * 200 < chan 0 px + chan 1 px + chan 2 px) /\
  spec_edge_white_at px = true /\
  edge_white_at px = false /\
  edge_cleanup_pass rgba_views [[px]] = inr (tt, [[px]]) /\
  ensure_transparency convert_RGBA image = inr image.
Proof.
  repeat split; try reflexivity; unfold chan; simpl; lia.
Qed.

(** Claim C5.  Idempotence.  On every well-formed RGBA image the function
    returns an image, and the function applied to that image returns it
    again. *)
Theorem refine_idempotent (convert_RGBA : Image -> Image) (image : Image) :
  well_formed_image image ->
  exists out,
    ensure_transparency convert_RGBA image = inr out /\
    ensure_transparency convert_RGBA out = inr out.
Proof.
  intros Hi. pose proof Hi as [Hm Hd].
  exists (fromarray (np.ew1 refine_px (pixels image))).
  split; [by apply ensure_transparency_run|].
  rewrite ensure_transparency_run
    by (split; [reflexivity | by apply well_formed_refine]).
  simpl. f_equal. f_equal. rewrite ew1_ew1.
  apply (ew1_ext (fun px => length px = 4%nat)).
  - apply refine_px_idem.
  - by apply well_formed_four_channels.
Qed.

Lemma refine_idempotent_witness :
  well_formed_image sample /\
  exists out,
    ensure_transparency (fun image => image) sample = inr out /\
    ensure_transparency (fun image => image) out = inr out.
Proof.
  assert (Hi : well_formed_image sample) by solve_well_formed.
  split; [exact Hi|].
  exact (refine_idempotent (fun image => image) sample Hi).
Defined.

(** Claim C6.  Totality.  On every well-formed RGBA image (exactly four channels,
    every value 8-bit) the function raises nothing: it returns an image,
    which is again a well-formed RGBA image of the same height and row
    widths.  The function is a function of its argument alone: the only
    state it writes is the array it made with [np.array]. *)
Theorem refine_total (convert_RGBA : Image -> Image) (image : Image) :
  well_formed_image image ->
  exists out,
    ensure_transparency convert_RGBA image = inr out /\
    well_formed_image out /\
    shape (pixels out) = shape (pixels image) /\
    exists data,
      (refine;; np.get) (np_array image) = inr (data, data) /\
      out = fromarray data.
Proof.
  intros Hi. pose proof Hi as [Hm Hd].
  exists (fromarray (np.ew1 refine_px (pixels image))).
  split; [by apply ensure_transparency_run|].
  split; [split; [reflexivity | by apply well_formed_refine]|].
  split; [apply shape_ew1|].
  exists (np.ew1 refine_px (pixels image)). split; [|reflexivity].
  unfold mbind, np.M_bind, np_array.
  by rewrite (refine_run _ (well_formed_four_channels _ Hd)).
Qed.

Lemma refine_total_witness :
  well_formed_image sample /\
  exists out,
    ensure_transparency (fun image => image) sample = inr out /\
    well_formed_image out /\
    shape (pixels out) = [2%nat; 2%nat].
Proof.
  assert (Hi : well_formed_image sample) by solve_well_formed.
  split; [exact Hi|].
  destruct (refine_total (fun image => image) sample Hi)
    as (out & E & Hw & Hs & _).
  exists out. split; [exact E|]. split; [exact Hw|]. exact Hs.
Defined.

(** Claim C9.  No faint pixel in the output.  On every well-formed RGBA image
    the function returns an image in which no pixel has an alpha strictly
    between 0 and 50: every alpha is 0 or at least 50. *)
Theorem refine_no_faint_alpha (convert_RGBA : Image -> Image) (image : Image) :
  well_formed_image image ->
  exists out,
    ensure_transparency convert_RGBA image = inr out /\
    forall i j r g b a,
      pixel_at (pixels out) i j = Some [r; g; b; a] ->
      a = 0 \/ 50 <= a.
Proof.
  intros Hi. pose proof Hi as [Hm Hd].
  exists (fromarray (np.ew1 refine_px (pixels image))).
  split; [by apply ensure_transparency_run|].
  intros i j r g b a. simpl. rewrite pixel_at_ew1.
  destruct (pixel_at (pixels image) i j) as [p0|] eqn:H0; [|discriminate].
  destruct (well_formed_pixel_at _ i j p0 Hd H0) as [L0 _].
  destruct (four_channels_inv p0 L0) as (r0 & g0 & b0 & a0 & ->).
  simpl.
  destruct (refine_px_cases r0 g0 b0 a0)
    as [(?&?&?&->)|[(?&?&->)|(?&?&->)]];
    intros [= <- <- <- <-]; auto.
Qed.

Lemma refine_no_faint_alpha_witness :
  well_formed_image sample /\
  exists out,
    ensure_transparency (fun image => image) sample = inr out /\
    forall i j r g b a,
      pixel_at (pixels out) i j = Some [r; g; b; a] ->
      a = 0 \/ 50 <= a.
Proof.
  assert (Hi : well_formed_image sample) by solve_well_formed.
  split; [exact Hi|].
  exact (refine_no_faint_alpha (fun image => image) sample Hi).
Defined.

(** Claim C10.  Frame.  On every well-formed RGBA image the function returns an
    image of the same height and row widths in which every pixel is
    (255, 255, 255, 0), or the input pixel, or the input pixel with alpha 0;
    so no alpha grows, and red, green and blue are those of the input or
    all 255. *)
Theorem refine_frame (convert_RGBA : Image -> Image) (image : Image) :
  well_formed_image image ->
  exists out,
    ensure_transparency convert_RGBA image = inr out /\
    shape (pixels out) = shape (pixels image) /\
    forall i j r g b a,
      pixel_at (pixels image) i j = Some [r; g; b; a] ->
      exists r' g' b' a',
        pixel_at (pixels out) i j = Some [r'; g'; b'; a'] /\
        ([r'; g'; b'; a'] = [255; 255; 255; 0] \/
         [r'; g'; b'; a'] = [r; g; b; a] \/
         [r'; g'; b'; a'] = [r; g; b; 0]) /\
        a' <= a /\
        ((r', g', b') = (r, g, b) \/ (r', g', b') = (255, 255, 255)).
Proof.
  intros Hi. pose proof Hi as [Hm Hd].
  exists (fromarray (np.ew1 refine_px (pixels image))).
  split; [by apply ensure_transparency_run|].
  split; [apply shape_ew1|].
  intros i j r g b a H. simpl. rewrite pixel_at_ew1, H. simpl.
  destruct (well_formed_pixel_at _ i j _ Hd H) as [_ U].
  revert U. rewrite !Forall_cons, !Forall_nil. unfold is_uint8. intros U.
  destruct (refine_px_cases r g b a)
    as [(?&?&?&->)|[(?&?&->)|(?&?&->)]].
  - exists 255, 255, 255, 0. repeat split; auto; lia.
  - exists r, g, b, 0. repeat split; auto; lia.
  - exists r, g, b, a. repeat split; auto; lia.
Qed.

Lemma refine_frame_witness :
  well_formed_image sample /\
  exists out,
    ensure_transparency (fun image => image) sample = inr out /\
    exists r' g' b' a',
      pixel_at (pixels out) 1 1 = Some [r'; g'; b'; a'] /\
      a' <= 120.
Proof.
  assert (Hi : well_formed_image sample) by solve_well_formed.
  split; [exact Hi|].
  destruct (refine_frame (fun image => image) sample Hi)
    as (out & E & _ & Hf).
  exists out. split; [exact E|].
  destruct (Hf 1%nat 1%nat 210 210 200 120 eq_refl)
    as (r' & g' & b' & a' & H & _ & Ha & _).
  by exists r', g', b', a'.
Defined.

(** * The claims about the prompts and the batch driver *)

Example strip_lower_answer : lower (strip "  N ") = "n".
Proof. reflexivity. Qed.

(** Claim C7 as stated fails: an upper-case N and a padded y are not the literals
    ['n'] and ['y'], yet the first disables alpha matting and the second
    enables mask-only output. *)
Lemma select_options_literal_counterexample :
  ~ (forall a1 a2 rest alpha_matting only_mask rest',
        select_options (a1 :: a2 :: rest)
        = inr (alpha_matting, only_mask, rest') ->
        (alpha_matting = false <-> a1 = "n") /\
        (only_mask = true <-> a2 = "y")).
Proof.
  intros H.
  destruct (H "N" " y " [] false true [] eq_refl) as [[Hn _] _].
  discriminate (Hn eq_refl).
Qed.

(** Claim C7, amended.  Option asymmetry on the normalised answer.  Each answer
    is stripped of surrounding white space and lower-cased first.  Alpha
    matting is disabled exactly when the normalised first answer is ['n']
    and enabled for every other answer; mask-only output is enabled exactly
    when the normalised second answer is ['y'] and disabled for every other
    answer. *)
Theorem select_options_asymmetry (a1 a2 : string) (rest : list string) :
  exists alpha_matting only_mask,
    select_options (a1 :: a2 :: rest) = inr (alpha_matting, only_mask, rest) /\
    (alpha_matting = false <-> lower (strip a1) = "n") /\
    (alpha_matting = true <-> lower (strip a1) <> "n") /\
    (only_mask = true <-> lower (strip a2) = "y") /\
    (only_mask = false <-> lower (strip a2) <> "y").
Proof.
  exists (negb (String.eqb (lower (strip a1)) "n")),
         (String.eqb (lower (strip a2)) "y").
  split; [reflexivity|].
  destruct (String.eqb_spec (lower (strip a1)) "n") as [E1|E1],
           (String.eqb_spec (lower (strip a2)) "y") as [E2|E2];
    simpl; repeat split; intros; try done.
Qed.

Section Batch.

Variables W Session : Type.
Variable Image_open : Path -> W -> (BaseException + Image) * W.
Variable remove :
  Image -> Session -> bool -> Z -> Z -> Z -> bool ->
  W -> (BaseException + Image) * W.
Variable save : Image -> Path -> string -> bool -> W -> (BaseException + unit) * W.
Variable convert_RGBA : Image -> Image.

#[local] Abbreviation process :=
  (process_image_advanced W Session Image_open remove save convert_RGBA).
#[local] Abbreviation loop :=
  (for_images W Session Image_open remove save convert_RGBA).

(** An [Exception] never leaves [process_image_advanced]. *)
Lemma process_image_advanced_catches input_path output_path session am om w e w' :
  process input_path output_path session am om w <> (inl (Exc e), w').
Proof.
  unfold process_image_advanced, try_except, mbind, P_bind,
    call, lift, print, mret, P_ret. simpl.
  destruct (Image_open input_path (ext w)) as [[[e1|]|img] x1]; simpl;
    try discriminate.
  destruct (remove img session am 240 10 10 om x1) as [[[e2|]|img2] x2];
    simpl; try discriminate.
  destruct (ensure_transparency convert_RGBA img2) as [e3|img3]; simpl;
    try discriminate.
  destruct (save img3 _ "PNG" true x2) as [[[e4|]|[]] x3]; simpl;
    discriminate.
Qed.

(** A failure of the decoder is caught and reported. *)
Lemma process_image_advanced_open_fails input_path output_path session am om w e x :
  Image_open input_path (ext w) = (inl (Exc e), x) ->
  process input_path output_path session am om w =
  (inr (false, None),
   {| ext := x;
      stdout := (stdout w ++ [Processing (name input_path)]) ++ [Failed e] |}).
Proof.
  intros H.
  unfold process_image_advanced, try_except, mbind, P_bind,
    call, lift, print, mret, P_ret. simpl.
  by rewrite H.
Qed.

(** A failure of the pixel code is caught and reported. *)
Lemma process_image_advanced_refine_fails
  input_path output_path session am om w img x1 img2 x2 e :
  Image_open input_path (ext w) = (inr img, x1) ->
  remove img session am 240 10 10 om x1 = (inr img2, x2) ->
  ensure_transparency convert_RGBA img2 = inl e ->
  process input_path output_path session am om w =
  (inr (false, None),
   {| ext := x2;
      stdout := (stdout w ++ [Processing (name input_path)]) ++ [Failed e] |}).
Proof.
  intros H1 H2 H3.
  unfold process_image_advanced, try_except, mbind, P_bind,
    call, lift, print, mret, P_ret. simpl.
  rewrite H1; simpl. rewrite H2; simpl. by rewrite H3.
Qed.

(** A failure of the encoder is caught and reported. *)
Lemma process_image_advanced_save_fails
  input_path output_path session am om w img x1 img2 x2 img3 e x3 :
  Image_open input_path (ext w) = (inr img, x1) ->
  remove img session am 240 10 10 om x1 = (inr img2, x2) ->
  ensure_transparency convert_RGBA img2 = inr img3 ->
  save img3 {| parent := output_path;
               stem := stem input_path +:+ "_no_bg";
               suffix := ".png" |} "PNG" true x2 = (inl (Exc e), x3) ->
  process input_path output_path session am om w =
  (inr (false, None),
   {| ext := x3;
      stdout := (stdout w ++ [Processing (name input_path)]) ++ [Failed e] |}).
Proof.
  intros H1 H2 H3 H4.
  unfold process_image_advanced, try_except, mbind, P_bind,
    call, lift, print, mret, P_ret. simpl.
  rewrite H1; simpl. rewrite H2; simpl. rewrite H3; simpl. by rewrite H4.
Qed.

(** An interrupt is not an [Exception]: it passes through. *)
Lemma process_image_advanced_interrupted input_path output_path session am om w x :
  Image_open input_path (ext w) = (inl KeyboardInterrupt, x) ->
  process input_path output_path session am om w =
  (inl KeyboardInterrupt,
   {| ext := x; stdout := stdout w ++ [Processing (name input_path)] |}).
Proof.
  intros H.
  unfold process_image_advanced, try_except, mbind, P_bind,
    call, lift, print, mret, P_ret. simpl.
  by rewrite H.
Qed.

(** The collaborators raise errors but are not interrupted. *)
Hypothesis open_not_interrupted :
  forall p x, (Image_open p x).1 <> inl KeyboardInterrupt.
Hypothesis remove_not_interrupted :
  forall img s am fg bg er om x,
    (remove img s am fg bg er om x).1 <> inl KeyboardInterrupt.
Hypothesis save_not_interrupted :
  forall img p fmt opt x, (save img p fmt opt x).1 <> inl KeyboardInterrupt.



(** A failure of the model is caught and reported. *)
Lemma process_image_advanced_remove_fails
  input_path output_path session am om w img x1 e x2 :
  Image_open input_path (ext w) = (inr img, x1) ->
  remove img session am 240 10 10 om x1 = (inl (Exc e), x2) ->
  process input_path output_path session am om w =
  (inr (false, None),
   {| ext := x2;
      stdout := (stdout w ++ [Processing (name input_path)]) ++ [Failed e] |}).
Proof.
  intros H1 H2.
  unfold process_image_advanced, try_except, mbind, P_bind,
    call, lift, print, mret, P_ret. simpl.
  rewrite H1; simpl. by rewrite H2.
Qed.

Lemma process_image_advanced_raises input_path output_path session am om w e x' :
  raises W Session Image_open remove save convert_RGBA
         input_path output_path session am om (ext w) e x' ->
  process input_path output_path session am om w =
  (inr (false, None),
   {| ext := x';
      stdout := stdout w ++ [Processing (name input_path); Failed e] |}).
Proof.
  intros H.
  destruct H;
    [ erewrite process_image_advanced_open_fails by eassumption
    | erewrite process_image_advanced_remove_fails by eassumption
    | erewrite process_image_advanced_refine_fails by eassumption
    | erewrite process_image_advanced_save_fails by eassumption ];
    by rewrite <- app_assoc.
Qed.

Lemma process_image_advanced_succeeds
  input_path output_path session am om w output_file x' :
  succeeds W Session Image_open remove save convert_RGBA
           input_path output_path session am om (ext w) output_file x' ->
  process input_path output_path session am om w =
  (inr (true, Some output_file),
   {| ext := x';
      stdout := stdout w ++ [Processing (name input_path); Done] |}).
Proof.
  intros [img x1 img2 x2 img3 x3 H1 H2 H3 H4].
  unfold process_image_advanced, try_except, mbind, P_bind,
    call, lift, print, mret, P_ret. simpl.
  rewrite H1; simpl. rewrite H2; simpl. rewrite H3; simpl. rewrite H4; simpl.
  by rewrite <- app_assoc.
Qed.

(** Without interrupts every image either succeeds or raises. *)
Lemma raises_or_succeeds input_path output_path session am om x :
  (exists e x', raises W Session Image_open remove save convert_RGBA
                       input_path output_path session am om x e x') \/
  (exists f x', succeeds W Session Image_open remove save convert_RGBA
                         input_path output_path session am om x f x').
Proof.
  pose proof (open_not_interrupted input_path x) as Ho.
  destruct (Image_open input_path x) as [[[e1|]|img] x1] eqn:E1; simpl in Ho;
    [ | done | ].
  { left. exists e1, x1. by apply raises_decode. }
  pose proof (remove_not_interrupted img session am 240 10 10 om x1) as Hr.
  destruct (remove img session am 240 10 10 om x1) as [[[e2|]|img2] x2] eqn:E2;
    simpl in Hr; [ | done | ].
  { left. exists e2, x2. by eapply raises_model. }
  destruct (ensure_transparency convert_RGBA img2) as [e3|img3] eqn:E3.
  { left. exists e3, x2. by eapply raises_refinement. }
  pose proof (save_not_interrupted img3
                {| parent := output_path;
                   stem := stem input_path +:+ "_no_bg";
                   suffix := ".png" |} "PNG" true x2) as Hs.
  destruct (save img3 _ "PNG" true x2) as [[[e4|]|[]] x3] eqn:E4;
    simpl in Hs; [ | done | ].
  { left. exists e4, x3. by eapply raises_encode. }
  right. eexists _, x3. by eapply succeeds_all.
Qed.

Lemma for_images_step_failure
  output_path session am om total i p images successful failed w e x' :
  raises W Session Image_open remove save convert_RGBA
         p output_path session am om (ext w) e x' ->
  loop output_path session am om total i (p :: images) successful failed w
  = loop output_path session am om total (S i) images successful (S failed)
         {| ext := x';
            stdout := stdout w ++ [Progress i total; Processing (name p);
                                   Failed e] |}.
Proof.
  intros H. simpl. unfold mbind at 1 2, P_bind at 1 2, print. simpl.
  rewrite (process_image_advanced_raises p output_path session am om
             {| ext := ext w; stdout := stdout w ++ [Progress i total] |}
             e x' H).
  simpl. by rewrite <- app_assoc.
Qed.

Lemma for_images_step_success
  output_path session am om total i p images successful failed w f x' :
  succeeds W Session Image_open remove save convert_RGBA
           p output_path session am om (ext w) f x' ->
  loop output_path session am om total i (p :: images) successful failed w
  = loop output_path session am om total (S i) images (S successful) failed
         {| ext := x';
            stdout := stdout w ++ [Progress i total; Processing (name p);
                                   Done] |}.
Proof.
  intros H. simpl. unfold mbind at 1 2, P_bind at 1 2, print. simpl.
  rewrite (process_image_advanced_succeeds p output_path session am om
             {| ext := ext w; stdout := stdout w ++ [Progress i total] |}
             f x' H).
  simpl. by rewrite <- app_assoc.
Qed.

Lemma for_images_trace output_path session am om total images :
  forall i successful failed w,
  exists results w',
    let out := batch_output total i images results in
    loop output_path session am om total i images successful failed w
    = (inr ((successful + count_done out)%nat,
            (failed + count_failed out)%nat), w') /\
    stdout w' = stdout w ++ out /\
    length results = length images /\
    Forall (fun o => o = Done \/ exists e, o = Failed e) results /\
    started out = name <$> images /\
    (count_done out + count_failed out = length images)%nat.
Proof.
  induction images as [|p images IH]; intros i successful failed w.
  - exists [], w. simpl. rewrite app_nil_r, !Nat.add_0_r. done.
  - destruct (raises_or_succeeds p output_path session am om (ext w))
      as [(e & x' & H)|(f & x' & H)].
    + rewrite (for_images_step_failure _ _ _ _ _ _ _ _ _ _ _ _ _ H).
      destruct (IH (S i) successful (S failed)
                  {| ext := x';
                     stdout := stdout w ++ [Progress i total;
                                            Processing (name p); Failed e] |})
        as (results & w' & E & Hout & Hlen & Hres & Hst & Hc).
      exists (Failed e :: results), w'. simpl in *.
      split; [|split; [|split; [|split; [|split]]]].
      * rewrite E. unfold count_done, count_failed. simpl.
        do 3 f_equal; lia.
      * rewrite Hout, <- app_assoc. reflexivity.
      * by rewrite Hlen.
      * constructor; eauto.
      * f_equal. exact Hst.
      * unfold count_done, count_failed in *. simpl. lia.
    + rewrite (for_images_step_success _ _ _ _ _ _ _ _ _ _ _ _ _ H).
      destruct (IH (S i) (S successful) failed
                  {| ext := x';
                     stdout := stdout w ++ [Progress i total;
                                            Processing (name p); Done] |})
        as (results & w' & E & Hout & Hlen & Hres & Hst & Hc).
      exists (Done :: results), w'. simpl in *.
      split; [|split; [|split; [|split; [|split]]]].
      * rewrite E. unfold count_done, count_failed. simpl.
        do 3 f_equal; lia.
      * rewrite Hout, <- app_assoc. reflexivity.
      * by rewrite Hlen.
      * constructor; eauto.
      * f_equal. exact Hst.
      * unfold count_done, count_failed in *. simpl. lia.
Qed.

(** Claim C8.  Per-image failure isolation.  No [Exception] leaves
    [process_image_advanced].  An [Exception] raised while an image is
    processed, by the decoder, the model, the pixel code or the encoder, is
    caught at the image boundary: the function returns (False, None) and
    prints the failure with the exception.  In the loop of [main] such an
    image adds exactly one to the count of failures and nothing to the count
    of successes, and the loop goes on with the remaining images; an image
    whose four steps return adds exactly one to the count of successes.
    With collaborators that raise errors but are not interrupted, the loop
    returns for every batch: every image is started, in order, each ends in
    one success or one failure message, the two counts are the numbers of
    those messages, and they add up to the number of images. *)
Theorem batch_failure_isolation output_path session am om :
  (forall input_path w e w',
      process input_path output_path session am om w <> (inl (Exc e), w')) /\
  (forall input_path w e x',
      raises W Session Image_open remove save convert_RGBA
             input_path output_path session am om (ext w) e x' ->
      process input_path output_path session am om w
      = (inr (false, None),
         {| ext := x';
            stdout := stdout w ++ [Processing (name input_path);
                                   Failed e] |})) /\
  (forall total i image_path images successful failed w e x',
      raises W Session Image_open remove save convert_RGBA
             image_path output_path session am om (ext w) e x' ->
      loop output_path session am om total i (image_path :: images)
           successful failed w
      = loop output_path session am om total (S i) images
             successful (S failed)
             {| ext := x';
                stdout := stdout w ++ [Progress i total;
                                       Processing (name image_path);
                                       Failed e] |}) /\
  (forall total i image_path images successful failed w f x',
      succeeds W Session Image_open remove save convert_RGBA
               image_path output_path session am om (ext w) f x' ->
      loop output_path session am om total i (image_path :: images)
           successful failed w
      = loop output_path session am om total (S i) images
             (S successful) failed
             {| ext := x';
                stdout := stdout w ++ [Progress i total;
                                       Processing (name image_path);
                                       Done] |}) /\
  forall images w,
  exists successful failed out results w',
    main_loop W Session Image_open remove save convert_RGBA
              output_path session am om images w
    = (inr (successful, failed), w') /\
    stdout w' = stdout w ++ out /\
    out = batch_output (length images) 1 images results /\
    length results = length images /\
    Forall (fun o => o = Done \/ exists e, o = Failed e) results /\
    started out = name <$> images /\
    successful = count_done out /\
    failed = count_failed out /\
    (successful + failed = length images)%nat.
Proof.
  split; [intros; apply process_image_advanced_catches|].
  split; [intros; by apply process_image_advanced_raises|].
  split; [intros; by apply for_images_step_failure|].
  split; [intros; by eapply for_images_step_success|].
  intros images w.
  destruct (for_images_trace output_path session am om (length images)
              images 1%nat 0%nat 0%nat w)
    as (results & w' & E & Hout & Hlen & Hres & Hs & Hc).
  simpl in *.
  exists (count_done (batch_output (length images) 1 images results)),
         (count_failed (batch_output (length images) 1 images results)),
         (batch_output (length images) 1 images results), results, w'.
  unfold main_loop. rewrite E. done.
Qed.

End Batch.

Lemma batch_failure_isolation_witness :
  process_image_advanced nat unit sample_open sample_remove sample_save
    (fun image => image)
    {| parent := "input"; stem := "broken"; suffix := ".png" |}
    "output" tt true false {| ext := 0%nat; stdout := [] |}
  = (inr (false, None),
     {| ext := 0%nat;
        stdout := [Processing "broken.png";
                   Failed (Error "cannot identify image file")] |}) /\
  exists out w',
    main_loop nat unit sample_open sample_remove sample_save (fun image => image)
              "output" tt true false sample_images
              {| ext := 0%nat; stdout := [] |}
    = (inr (1%nat, 2%nat), w') /\
    stdout w' = out /\
    started out = ["a.jpg"; "broken.png"; "locked.webp"] /\
    count_done out = 1%nat /\
    count_failed out = 2%nat.
Proof.
  assert (Ho : forall p x, (sample_open p x).1 <> inl KeyboardInterrupt).
  { intros p x. unfold sample_open.
    destruct (String.eqb (stem p) "broken"); discriminate. }
  assert (Hr : forall img s am fg bg er om x,
             (sample_remove img s am fg bg er om x).1 <> inl KeyboardInterrupt)
    by discriminate.
  assert (Hs : forall img p fmt opt x,
             (sample_save img p fmt opt x).1 <> inl KeyboardInterrupt).
  { intros img p fmt opt x. unfold sample_save.
    destruct (String.eqb (stem p) "locked_no_bg"); discriminate. }
  destruct (batch_failure_isolation nat unit sample_open sample_remove
              sample_save (fun image => image) Ho Hr Hs
              "output" tt true false)
    as (_ & Hraise & _ & _ & Hbatch).
  split.
  - apply (Hraise {| parent := "input"; stem := "broken"; suffix := ".png" |}
             {| ext := 0%nat; stdout := [] |}).
    by apply raises_decode.
  - destruct (Hbatch sample_images {| ext := 0%nat; stdout := [] |})
      as (successful & failed & out & results & w' & E & Hout & _).
    exists out, w'.
    vm_compute in E. injection E as <- <- <-.
    simpl in Hout. subst out. repeat split; reflexivity.
Defined.

(** * Further properties of the transparency refiner *)

Lemma edge_cleanup_pass_changes_nothing_witness :
  edge_cleanup_pass rgba_views (pixels sample) = inr (tt, pixels sample).
Proof.
  apply edge_cleanup_pass_changes_nothing.
  repeat first [apply Forall_nil_2 | apply Forall_cons_2]; reflexivity.
Defined.

Lemma near_white_low_alpha_px_commute px :
  length px = 4%nat ->
  near_white_px (low_alpha_px px) = low_alpha_px (near_white_px px).
Proof.
  intros H. destruct (four_channels_inv px H) as (r & g & b & a & ->).
  destruct (low_alpha_px_cases r g b a) as [[Ha ->]|[Ha ->]];
    destruct (near_white_px_cases r g b a) as [(?&?&?&E)|[? E]]; rewrite E.
  - destruct (near_white_px_cases r g b 0) as [(?&?&?&->)|[? ?]]; [done|lia].
  - destruct (near_white_px_cases r g b 0) as [(?&?&?&?)|[? ->]]; [lia|].
    destruct (low_alpha_px_cases r g b a) as [[? ->]|[? ?]]; [done|lia].
  - reflexivity.
  - destruct (low_alpha_px_cases r g b a) as [[? ?]|[? ->]]; [lia|done].
Qed.

(** Passes 1 and 2 commute: running low-alpha snapping before near-white
    suppression, and edge cleanup last, gives on every array with four
    channels what the function computes. *)
Theorem near_white_low_alpha_commute (d : np.buffer) :
  four_channels d ->
  (low_alpha_pass rgba_views;; near_white_pass rgba_views;;
   edge_cleanup_pass rgba_views) d = refine d.
Proof.
  intros H. rewrite refine_run by done.
  unfold mbind, np.M_bind.
  rewrite (low_alpha_pass_run d H).
  rewrite (near_white_pass_run _ (four_channels_low_alpha d H)).
  rewrite (edge_cleanup_pass_run _
             (four_channels_near_white _ (four_channels_low_alpha d H))).
  rewrite !ew1_ew1. do 2 f_equal.
  apply (ew1_ext (fun px => length px = 4%nat)); [|exact H].
  intros px Hpx. unfold refine_px.
  by rewrite near_white_low_alpha_px_commute.
Qed.

Lemma near_white_low_alpha_commute_witness :
  (low_alpha_pass rgba_views;; near_white_pass rgba_views;;
   edge_cleanup_pass rgba_views) (pixels sample) = refine (pixels sample).
Proof.
  apply near_white_low_alpha_commute.
  repeat first [apply Forall_nil_2 | apply Forall_cons_2]; reflexivity.
Defined.

Lemma ew1_fixed (f : list Z -> list Z) (d : np.buffer) :
  np.ew1 f d = d <->
  forall i j px, pixel_at d i j = Some px -> f px = px.
Proof.
  split.
  - intros E i j px H.
    assert (H' : pixel_at (np.ew1 f d) i j = Some px) by (by rewrite E).
    rewrite pixel_at_ew1, H in H'. simpl in H'. congruence.
  - intros Hfix. unfold np.ew1.
    rewrite <- (list_fmap_id d) at 2.
    apply list_fmap_ext. intros i row Hrow. simpl.
    rewrite <- (list_fmap_id row) at 2.
    apply list_fmap_ext. intros j px Hpx. simpl.
    apply (Hfix i j). unfold pixel_at, np.item. rewrite Hrow. exact Hpx.
Qed.

(** The images the function leaves as they are: a well-formed RGBA image is
    returned unchanged exactly when each of its near-white pixels already is
    (255, 255, 255, 0) and each alpha below 50 already is 0. *)
Theorem ensure_transparency_fixed_point
  (convert_RGBA : Image -> Image) (image : Image) :
  well_formed_image image ->
  (ensure_transparency convert_RGBA image = inr image <->
   forall i j r g b a,
     pixel_at (pixels image) i j = Some [r; g; b; a] ->
     (240 < r -> 240 < g -> 240 < b -> [r; g; b; a] = [255; 255; 255; 0]) /\
     (a < 50 -> a = 0)).
Proof.
  intros Hi. pose proof Hi as [Hm Hd].
  rewrite ensure_transparency_run by done.
  destruct image as [m d]. simpl in *. subst m. unfold fromarray.
  split.
  - intros E. injection E as E. rewrite ew1_fixed in E.
    intros i j r g b a H. specialize (E i j _ H).
    destruct (refine_px_cases r g b a)
      as [(?&?&?&E')|[(?&?&E')|(?&?&E')]]; rewrite E' in E.
    + injection E as <- <- <- <-. split; [done | lia].
    + injection E as <-. split; [intros; lia | done].
    + split; intros; lia.
  - intros Hfix. do 2 f_equal. apply ew1_fixed. intros i j px H.
    destruct (well_formed_pixel_at d i j px Hd H) as [L _].
    destruct (four_channels_inv px L) as (r & g & b & a & ->).
    destruct (Hfix i j r g b a H) as [Hw Hl].
    destruct (refine_px_cases r g b a)
      as [(?&?&?&->)|[(?&?&->)|(?&?&->)]].
    + symmetry. by apply Hw.
    + by rewrite Hl.
    + reflexivity.
Qed.

Lemma ensure_transparency_fixed_point_witness :
  ensure_transparency (fun image => image)
    {| mode := "RGBA";
       pixels := [[[255; 255; 255; 0]; [10; 10; 10; 255]; [7; 8; 9; 0]]] |}
  = inr {| mode := "RGBA";
           pixels := [[[255; 255; 255; 0]; [10; 10; 10; 255]; [7; 8; 9; 0]]] |}.
Proof.
  apply ensure_transparency_fixed_point; [solve_well_formed|].
  intros i j r g b a H.
  destruct i as [|i]; [|destruct i; discriminate].
  destruct j as [|[|[|j]]]; [..|destruct j; discriminate];
    injection H as <- <- <- <-; split; (done || lia).
Defined.

(** * Further properties of the prompts *)

Lemma lstrip_all_space s : all_space s = true -> lstrip s = EmptyString.
Proof.
  induction s as [|c s IH]; simpl; [done|].
  intros [Hc Hs]%andb_true_iff. rewrite Hc. auto.
Qed.

Lemma rstrip_all_space s : all_space s = true -> rstrip s = EmptyString.
Proof.
  induction s as [|c s IH]; simpl; [done|].
  intros [Hc Hs]%andb_true_iff. by rewrite (IH Hs), Hc.
Qed.

Lemma strip_all_space s : all_space s = true -> strip s = EmptyString.
Proof.
  intros H. unfold strip. by rewrite (lstrip_all_space s H).
Qed.

Lemma append_cons c s t : String c s +:+ t = String c (s +:+ t).
Proof. reflexivity. Qed.

Lemma append_nil_l t : EmptyString +:+ t = t.
Proof. reflexivity. Qed.

Lemma lstrip_split s :
  exists ws, s = ws +:+ lstrip s /\ all_space ws = true.
Proof.
  induction s as [|c s (ws & E & Hws)]; simpl.
  - by exists EmptyString.
  - destruct (isspace c) eqn:Hc.
    + exists (String c ws). split.
      * rewrite append_cons. f_equal. exact E.
      * simpl. by rewrite Hc, Hws.
    + by exists EmptyString.
Qed.

Lemma rstrip_split s :
  exists ws, s = rstrip s +:+ ws /\ all_space ws = true.
Proof.
  induction s as [|c s (ws & E & Hws)]; simpl.
  - by exists EmptyString.
  - destruct (rstrip s) as [|c' r] eqn:Hr.
    + simpl in E. subst s. destruct (isspace c) eqn:Hc.
      * exists (String c ws). split; [done|]. simpl. by rewrite Hc, Hws.
      * by exists ws.
    + exists ws. split; [|done]. rewrite E at 1. reflexivity.
Qed.

Lemma strip_split s :
  exists ws1 ws2,
    s = ws1 +:+ strip s +:+ ws2 /\
    all_space ws1 = true /\ all_space ws2 = true.
Proof.
  destruct (lstrip_split s) as (ws1 & E1 & H1).
  destruct (rstrip_split (lstrip s)) as (ws2 & E2 & H2).
  exists ws1, ws2. unfold strip. by rewrite <- E2, <- E1.
Qed.

Lemma lstrip_padded ws c t :
  all_space ws = true -> isspace c = false ->
  lstrip (ws +:+ String c t) = String c t.
Proof.
  intros Hws Hc. induction ws as [|w ws IH]; simpl in *.
  - by rewrite Hc.
  - apply andb_true_iff in Hws as [Hw Hws]. rewrite Hw. auto.
Qed.

Lemma strip_padded ws1 c ws2 :
  all_space ws1 = true -> all_space ws2 = true -> isspace c = false ->
  strip (ws1 +:+ String c EmptyString +:+ ws2) = String c EmptyString.
Proof.
  intros H1 H2 Hc. unfold strip. rewrite append_cons, append_nil_l.
  rewrite (lstrip_padded ws1 c ws2 H1 Hc). simpl.
  by rewrite (rstrip_all_space ws2 H2), Hc.
Qed.

Lemma lower_single (s : string) (c : Ascii.ascii) :
  lower s = String c EmptyString ->
  exists c0, s = String c0 EmptyString /\ lower_char c0 = c.
Proof.
  destruct s as [|c0 [|c1 s]]; simpl; try discriminate.
  intros [= <-]. by exists c0.
Qed.

Lemma lower_char_n c : lower_char c = "n"%char <-> c = "n"%char \/ c = "N"%char.
Proof.
  split; [|by intros [-> | ->]].
  destruct c as [[] [] [] [] [] [] [] []]; vm_compute; intros H;
    try discriminate H; auto.
Qed.

Lemma lower_char_y c : lower_char c = "y"%char <-> c = "y"%char \/ c = "Y"%char.
Proof.
  split; [|by intros [-> | ->]].
  destruct c as [[] [] [] [] [] [] [] []]; vm_compute; intros H;
    try discriminate H; auto.
Qed.

(** The answers that normalise to one given lower-case letter. *)
Lemma normalised_single (a : string) (l u : Ascii.ascii) :
  (forall c, lower_char c = l <-> c = l \/ c = u) ->
  isspace l = false -> isspace u = false ->
  lower (strip a) = String l EmptyString <->
  exists ws1 ws2 c,
    a = ws1 +:+ c +:+ ws2 /\
    all_space ws1 = true /\ all_space ws2 = true /\
    (c = String l EmptyString \/ c = String u EmptyString).
Proof.
  intros Hlu Hl Hu. split.
  - intros H. destruct (lower_single _ _ H) as (c0 & Es & Hc0).
    destruct (strip_split a) as (ws1 & ws2 & E & H1 & H2).
    exists ws1, ws2, (String c0 EmptyString). rewrite <- Es.
    repeat split; try done.
    apply Hlu in Hc0 as [-> | ->]; auto.
  - intros (ws1 & ws2 & c & -> & H1 & H2 & [-> | ->]).
    + rewrite strip_padded by done. simpl. f_equal. apply Hlu. auto.
    + rewrite strip_padded by done. simpl. f_equal. apply Hlu. auto.
Qed.

(** [select_options] reads exactly two lines; with fewer than two lines on
    standard input it raises [EOFError]. *)
Theorem select_options_reads_two_lines (stdin : list string) :
  match stdin with
  | a1 :: a2 :: rest =>
      exists alpha_matting only_mask,
        select_options stdin = inr (alpha_matting, only_mask, rest)
  | _ => select_options stdin = inl (Error "EOFError")
  end.
Proof.
  destruct stdin as [|a1 [|a2 rest]]; try reflexivity.
  simpl. eauto.
Qed.

(** The defaults of the two prompts: answers that are empty or white space
    only leave alpha matting on and mask-only output off. *)
Theorem select_options_defaults (a1 a2 : string) (rest : list string) :
  all_space a1 = true -> all_space a2 = true ->
  select_options (a1 :: a2 :: rest) = inr (true, false, rest).
Proof.
  intros H1 H2. unfold select_options. simpl.
  by rewrite (strip_all_space a1 H1), (strip_all_space a2 H2).
Qed.

Lemma select_options_defaults_witness :
  select_options [""; "  "; "next"] = inr (true, false, ["next"]).
Proof. apply select_options_defaults; reflexivity. Defined.

(** The answers that switch an option: alpha matting is turned off exactly
    by an [n] or [N] with any white space around it, and mask-only output is
    turned on exactly by a [y] or [Y] with any white space around it. *)
Theorem select_options_answers (a1 a2 : string) (rest : list string) :
  exists alpha_matting only_mask,
    select_options (a1 :: a2 :: rest) = inr (alpha_matting, only_mask, rest) /\
    (alpha_matting = false <->
     exists ws1 ws2 c,
       a1 = ws1 +:+ c +:+ ws2 /\
       all_space ws1 = true /\ all_space ws2 = true /\
       (c = "n" \/ c = "N")) /\
    (only_mask = true <->
     exists ws1 ws2 c,
       a2 = ws1 +:+ c +:+ ws2 /\
       all_space ws1 = true /\ all_space ws2 = true /\
       (c = "y" \/ c = "Y")).
Proof.
  exists (negb (String.eqb (lower (strip a1)) "n")),
         (String.eqb (lower (strip a2)) "y").
  split; [reflexivity|]. split.
  - rewrite <- (normalised_single a1 "n" "N" lower_char_n eq_refl eq_refl).
    rewrite negb_false_iff. apply String.eqb_eq.
  - rewrite <- (normalised_single a2 "y" "Y" lower_char_y eq_refl eq_refl).
    apply String.eqb_eq.
Qed.

(** * Properties of the model menu *)

Lemma MODELS_keys (s : string) :
  is_Some (MODELS !! s) <-> s ∈ ["1"; "2"; "3"; "4"; "5"].
Proof.
  split.
  - intros [m Hm]. unfold MODELS in Hm.
    apply elem_of_list_to_map_2 in Hm. unfold MODELS_items in Hm.
    rewrite !elem_of_cons, elem_of_nil in Hm. rewrite !elem_of_cons.
    destruct Hm as [H|[H|[H|[H|[H|[]]]]]]; injection H as ? ?; subst; auto 10.
  - rewrite !elem_of_cons, elem_of_nil.
    intros [->|[->|[->|[->|[->|[]]]]]]; vm_compute; eauto.
Qed.

Lemma MODELS_names (s : string) (m : Model.t) :
  MODELS !! s = Some m ->
  Model.name m ∈ ["u2net"; "u2netp"; "u2net_human_seg"; "u2net_cloth_seg";
                  "isnet-general-use"].
Proof.
  intros Hm. unfold MODELS in Hm.
  apply elem_of_list_to_map_2 in Hm. unfold MODELS_items in Hm.
  rewrite !elem_of_cons, elem_of_nil in Hm. rewrite !elem_of_cons.
  destruct Hm as [H|[H|[H|[H|[H|[]]]]]]; injection H as ? ?; subst; simpl; auto 10.
Qed.

(** The answers the menu accepts: a line is accepted exactly when, stripped
    of surrounding white space, it is empty or one of the digits 1 to 5. *)
Theorem select_model_accepts (line : string) :
  is_Some (MODELS !! choice_of line) <->
  strip line ∈ [""; "1"; "2"; "3"; "4"; "5"].
Proof.
  rewrite MODELS_keys. unfold choice_of.
  rewrite !elem_of_cons, !elem_of_nil.
  destruct (strip line) as [|c s] eqn:E.
  - split; auto.
  - split; [auto|]. intros [H|H]; [discriminate|exact H].
Qed.

(** The default of the menu: an answer that is empty or white space only
    selects the model [u2net]. *)
Theorem select_model_default (line : string) (rest : list string) :
  all_space line = true ->
  select_model (line :: rest) = inr ("u2net", rest).
Proof.
  intros H. simpl. unfold choice_of. by rewrite (strip_all_space line H).
Qed.

Lemma select_model_default_witness :
  select_model ["   "; "n"] = inr ("u2net", ["n"]).
Proof. apply select_model_default. reflexivity. Defined.

(** Invalid answers are asked again: after any number of rejected lines,
    the first accepted line decides the model, and the lines after it are
    left on standard input. *)
Theorem select_model_first_valid
  (bad : list string) (line : string) (m : Model.t) (rest : list string) :
  Forall (fun l => MODELS !! choice_of l = None) bad ->
  MODELS !! choice_of line = Some m ->
  select_model (bad ++ line :: rest) = inr (Model.name m, rest).
Proof.
  intros Hbad Hline. induction Hbad as [|l bad Hl _ IH]; simpl.
  - by rewrite Hline.
  - by rewrite Hl.
Qed.

Lemma select_model_first_valid_witness :
  select_model (["7"; "abc"; "1 2"] ++ " 3 " :: ["y"])
  = inr ("u2net_human_seg", ["y"]).
Proof.
  apply (select_model_first_valid ["7"; "abc"; "1 2"] " 3 "
           {| Model.name := "u2net_human_seg";
              Model.description := "People - Optimized for human subjects" |}).
  - repeat first [apply Forall_nil_2 | apply Forall_cons_2]; reflexivity.
  - reflexivity.
Defined.

(** When standard input runs out: the menu raises [EOFError] exactly when
    no line left on standard input is an accepted answer. *)
Theorem select_model_eof (stdin : list string) :
  select_model stdin = inl (Error "EOFError") <->
  Forall (fun l => MODELS !! choice_of l = None) stdin.
Proof.
  induction stdin as [|l stdin IH]; simpl.
  - split; [constructor | done].
  - destruct (MODELS !! choice_of l) as [m|] eqn:Hl.
    + split; [discriminate|]. intros H. inversion H; congruence.
    + rewrite IH. split; [by constructor | by inversion 1].
Qed.

(** What the menu returns: a returned name is one of the five model names,
    it belongs to the first accepted line, every line before that one was
    rejected, and the lines after it are what is left. *)
Theorem select_model_returns
  (stdin : list string) (model_name : string) (rest : list string) :
  select_model stdin = inr (model_name, rest) ->
  model_name ∈ ["u2net"; "u2netp"; "u2net_human_seg"; "u2net_cloth_seg";
                "isnet-general-use"] /\
  exists bad line m,
    stdin = bad ++ line :: rest /\
    Forall (fun l => MODELS !! choice_of l = None) bad /\
    MODELS !! choice_of line = Some m /\
    model_name = Model.name m.
Proof.
  induction stdin as [|l stdin IH]; simpl; [discriminate|].
  destruct (MODELS !! choice_of l) as [m|] eqn:Hl.
  - intros [= <- <-]. split; [by eapply MODELS_names|].
    exists [], l, m. by repeat split.
  - intros H. destruct (IH H) as (Hn & bad & line & m & -> & Hbad & Hm & ->).
    split; [exact Hn|].
    exists (l :: bad), line, m. repeat split; try done. by constructor.
Qed.

Lemma select_model_returns_witness :
  "isnet-general-use" ∈ ["u2net"; "u2netp"; "u2net_human_seg";
                          "u2net_cloth_seg"; "isnet-general-use"] /\
  exists bad line m,
    ["0"; "5"; "n"] = bad ++ line :: ["n"] /\
    Forall (fun l => MODELS !! choice_of l = None) bad /\
    MODELS !! choice_of line = Some m /\
    "isnet-general-use" = Model.name m.
Proof. apply (select_model_returns ["0"; "5"; "n"]). reflexivity. Defined.

(** * Properties of the folder scan *)

Lemma string_compare_le_trans (s1 s2 s3 : string) :
  String.compare s1 s2 <> Gt -> String.compare s2 s3 <> Gt ->
  String.compare s1 s3 <> Gt.
Proof.
  revert s2 s3. induction s1 as [|a s1 IH]; intros [|b s2] [|c s3]; simpl;
    try done.
  unfold Ascii.compare.
  destruct (N.compare_spec (N_of_ascii a) (N_of_ascii b)) as [Eab|Lab|Gab];
    destruct (N.compare_spec (N_of_ascii b) (N_of_ascii c)) as [Ebc|Lbc|Gbc];
    try done; intros H12 H23.
  - rewrite Eab, Ebc, N.compare_refl. by apply (IH s2).
  - rewrite Eab. by apply N.compare_lt_iff in Lbc as ->.
  - rewrite <- Ebc. by apply N.compare_lt_iff in Lab as ->.
  - assert (L : (N_of_ascii a < N_of_ascii c)%N) by lia.
    by apply N.compare_lt_iff in L as ->.
Qed.

#[local] Instance path_le_trans : Transitive path_le.
Proof.
  intros p q r. unfold path_le, String.leb.
  pose proof (string_compare_le_trans (name p) (name q) (name r)) as T.
  destruct (String.compare (name p) (name q)),
           (String.compare (name q) (name r)),
           (String.compare (name p) (name r)); try done;
    intros _ _; exfalso; by apply T.
Qed.

#[local] Instance path_le_total : Total path_le.
Proof. intros p q. apply String.leb_total. Qed.

Lemma supported_iff (e : DirEntry) :
  supported e = true <->
  is_file e = true /\
  lower (suffix (file e)) ∈ [".jpg"; ".jpeg"; ".png"; ".bmp"; ".tiff"; ".webp"].
Proof.
  unfold supported, SUPPORTED_FORMATS.
  rewrite andb_true_iff, bool_decide_eq_true.
  rewrite !elem_of_union, !elem_of_singleton, !elem_of_cons, elem_of_nil.
  tauto.
Qed.

Lemma get_images_permutation (listing : list DirEntry) :
  get_images_to_process listing ≡ₚ file <$> List.filter supported listing.
Proof. apply merge_sort_Permutation. Qed.

Lemma get_images_elem (listing : list DirEntry) (p : Path) :
  p ∈ get_images_to_process listing <->
  exists e,
    e ∈ listing /\ file e = p /\ is_file e = true /\
    lower (suffix p) ∈ [".jpg"; ".jpeg"; ".png"; ".bmp"; ".tiff"; ".webp"].
Proof.
  rewrite get_images_permutation, list_elem_of_fmap. split.
  - intros (e & -> & He). apply list_elem_of_In, filter_In in He as [He Hs].
    apply supported_iff in Hs as [Hf Hx].
    exists e. by rewrite list_elem_of_In.
  - intros (e & He & <- & Hf & Hx). exists e. split; [done|].
    apply list_elem_of_In, filter_In. split; [by apply list_elem_of_In|].
    by apply supported_iff.
Qed.

(** What the scan selects: the result holds exactly the entries that are
    files and whose suffix, lower-cased, is one of the six supported ones;
    each selected entry occurs as often as the folder listing yields it. *)
Theorem get_images_selects (listing : list DirEntry) :
  get_images_to_process listing ≡ₚ file <$> List.filter supported listing /\
  forall p,
    p ∈ get_images_to_process listing <->
    exists e,
      e ∈ listing /\ file e = p /\ is_file e = true /\
      lower (suffix p) ∈ [".jpg"; ".jpeg"; ".png"; ".bmp"; ".tiff"; ".webp"].
Proof.
  split; [apply get_images_permutation | apply get_images_elem].
Qed.

(** The scan returns the paths in the order of their names: a path never
    comes before one with a smaller name. *)
Theorem get_images_sorted (listing : list DirEntry) :
  StronglySorted path_le (get_images_to_process listing) /\
  forall i j p q,
    get_images_to_process listing !! i = Some p ->
    get_images_to_process listing !! j = Some q ->
    (i < j)%nat ->
    String.leb (name p) (name q) = true.
Proof.
  assert (HS : StronglySorted path_le (get_images_to_process listing))
    by apply (StronglySorted_merge_sort _).
  split; [exact HS|].
  revert HS. generalize (get_images_to_process listing). intros l HS.
  induction HS as [|x l HS IH Hx]; intros i j p q Hi Hj Hij.
  - discriminate.
  - destruct j as [|j]; [lia|]. destruct i as [|i]; simpl in *.
    + injection Hi as <-. rewrite Forall_forall in Hx.
      apply Hx. by eapply list_elem_of_lookup_2.
    + apply (IH i j); [done..|lia].
Qed.

(** The order in which the folder yields its entries does not matter: two
    listings of the same entries, with names all distinct, give the same
    list of images. *)
Theorem get_images_order_independent (l1 l2 : list DirEntry) :
  l1 ≡ₚ l2 ->
  NoDup ((fun e => name (file e)) <$> l1) ->
  get_images_to_process l1 = get_images_to_process l2.
Proof.
  intros HP HN.
  pose proof (get_images_permutation l1) as P1.
  pose proof (get_images_permutation l2) as P2.
  pose proof (get_images_elem l1) as M1.
  pose proof (get_images_elem l2) as M2.
  apply (Sorted_unique_strong path_le).
  - intros p q Hp Hq Hpq Hqp.
    assert (En : name p = name q) by (by apply String.leb_antisym).
    apply M1 in Hp as (e1 & He1 & <- & _).
    apply M2 in Hq as (e2 & He2 & <- & _).
    rewrite <- HP in He2.
    apply list_elem_of_lookup in He1 as [i1 Hi1].
    apply list_elem_of_lookup in He2 as [i2 Hi2].
    assert (i1 = i2).
    { eapply NoDup_lookup; [exact HN | |];
        rewrite list_lookup_fmap; [rewrite Hi1 | rewrite Hi2];
        simpl; [reflexivity | by rewrite En]. }
    subst i2. congruence.
  - apply (Sorted_merge_sort _).
  - apply (Sorted_merge_sort _).
  - rewrite P1, P2. apply fmap_Permutation.
    clear -HP. induction HP; simpl; try done.
    + destruct (supported x); [by constructor | done].
    + destruct (supported x), (supported y); try done. constructor.
    + by etrans.
Qed.

Lemma get_images_order_independent_witness :
  get_images_to_process
    [ {| file := {| parent := "input"; stem := "b"; suffix := ".PNG" |};
         is_file := true |};
      {| file := {| parent := "input"; stem := "notes"; suffix := ".txt" |};
         is_file := true |};
      {| file := {| parent := "input"; stem := "a"; suffix := ".jpg" |};
         is_file := true |} ]
  = get_images_to_process
    [ {| file := {| parent := "input"; stem := "a"; suffix := ".jpg" |};
         is_file := true |};
      {| file := {| parent := "input"; stem := "b"; suffix := ".PNG" |};
         is_file := true |};
      {| file := {| parent := "input"; stem := "notes"; suffix := ".txt" |};
         is_file := true |} ].
Proof.
  apply get_images_order_independent.
  - etrans; [apply perm_skip, Permutation_swap | apply Permutation_swap].
  - apply NoDup_ListNoDup.
    repeat (constructor; [vm_compute; intuition discriminate|]).
    constructor.
Defined.

(** * Properties of the main function and the entry point *)

Section Untouched.

(** A property of the collaborators' state that no collaborator of the loop
    destroys is kept by the loop. *)
Variables W Session : Type.
Variable Image_open : Path -> W -> (BaseException + Image) * W.
Variable remove :
  Image -> Session -> bool -> Z -> Z -> Z -> bool ->
  W -> (BaseException + Image) * W.
Variable save : Image -> Path -> string -> bool -> W -> (BaseException + unit) * W.
Variable convert_RGBA : Image -> Image.
Variable I : W -> Prop.

Hypothesis open_keeps : forall p x, I x -> I (Image_open p x).2.
Hypothesis remove_keeps :
  forall img s am fg bg er om x, I x -> I (remove img s am fg bg er om x).2.
Hypothesis save_keeps : forall img p fmt opt x, I x -> I (save img p fmt opt x).2.



End Untouched.

Lemma get_images_none (listing : list DirEntry) :
  get_images_to_process listing = [] <->
  Forall (fun e => supported e = false) listing.
Proof.
  split.
  - intros E. pose proof (get_images_permutation listing) as HP.
    rewrite E in HP. symmetry in HP. apply Permutation_nil_r in HP.
    apply fmap_nil_inv in HP.
    apply Forall_forall. intros e He.
    destruct (supported e) eqn:Hs; [|done].
    assert (Hin : In e (List.filter supported listing))
      by (apply filter_In; split; [by apply list_elem_of_In | done]).
    rewrite HP in Hin. destruct Hin.
  - intros H. unfold get_images_to_process.
    replace (List.filter supported listing) with (@nil DirEntry); [done|].
    induction H as [|e l He _ IH]; simpl; [done|]. by rewrite He.
Qed.

Ltac main_step :=
  cbn -[get_images_to_process select_model select_options main_loop].

Section MainProps.

Variables W Session : Type.
Variable mkdir : string -> W -> (BaseException + unit) * W.
Variable iterdir : string -> W -> (BaseException + list DirEntry) * W.
Variable new_session : string -> W -> (BaseException + Session) * W.
Variable Image_open : Path -> W -> (BaseException + Image) * W.
Variable remove :
  Image -> Session -> bool -> Z -> Z -> Z -> bool ->
  W -> (BaseException + Image) * W.
Variable save : Image -> Path -> string -> bool -> W -> (BaseException + unit) * W.
Variable convert_RGBA : Image -> Image.

#[local] Abbreviation run_script :=
  (script W Session mkdir iterdir new_session Image_open remove save
          convert_RGBA).

(** The folders are made and the input folder is listed. *)
Variables (x0 x1 x2 x3 : W) (listing : list DirEntry).
Hypothesis mkdir_input : mkdir INPUT_FOLDER x0 = (inr tt, x1).
Hypothesis mkdir_output : mkdir OUTPUT_FOLDER x1 = (inr tt, x2).
Hypothesis iterdir_input : iterdir INPUT_FOLDER x2 = (inr listing, x3).

(** With no supported image in the input folder the run ends at once with
    exit status 0: no line of standard input is read, no session is made
    and nothing is processed. *)
Theorem script_no_images (stdin : list string) (out : list output) :
  Forall (fun e => supported e = false) listing ->
  run_script {| ext := (x0, stdin); stdout := out |}
  = (0, {| ext := (x3, stdin); stdout := out |}).
Proof.
  intros Hnone. apply get_images_none in Hnone.
  unfold script, main, ensure_folders_exist, mbind, P_bind, call, on_ext.
  simpl. rewrite mkdir_input. simpl. rewrite mkdir_output. simpl.
  rewrite iterdir_input. simpl. by rewrite Hnone.
Qed.

(** When standard input runs out at the menu or at the two prompts, the run
    ends with exit status 1: no session is made and no image is processed. *)
Theorem script_eof (stdin : list string) (out : list output) :
  get_images_to_process listing <> [] ->
  (select_model stdin = inl (Error "EOFError") \/
   exists model_name rest,
     select_model stdin = inr (model_name, rest) /\ (length rest < 2)%nat) ->
  run_script {| ext := (x0, stdin); stdout := out |}
  = (1, {| ext := (x3, []); stdout := out |}).
Proof.
  intros Himg Heof.
  unfold script, main, ensure_folders_exist, mbind, P_bind, call, on_ext,
    on_stdin.
  main_step. rewrite mkdir_input. main_step. rewrite mkdir_output. main_step.
  rewrite iterdir_input. main_step.
  destruct (get_images_to_process listing) as [|p images]; [done|].
  main_step.
  destruct Heof as [E|(m & rest & E & Hlen)]; rewrite E; main_step; [done|].
  pose proof (select_options_reads_two_lines rest) as Ho.
  destruct rest as [|a1 [|a2 rest]]; simpl in Hlen; try lia;
    rewrite Ho; reflexivity.
Qed.

(** The menu and the prompts are answered and the session is made. *)
Variables (stdin stdin1 stdin2 : list string) (model_name : string).
Variables (alpha_matting only_mask : bool) (session : Session) (x4 : W).
Hypothesis model_chosen : select_model stdin = inr (model_name, stdin1).
Hypothesis options_chosen :
  select_options stdin1 = inr (alpha_matting, only_mask, stdin2).
Hypothesis session_made : new_session model_name x3 = (inr session, x4).

Lemma script_reaches_loop (out : list output) p images r w' :
  get_images_to_process listing = p :: images ->
  main_loop (console W) Session
    (fun p => on_ext W (Image_open p))
    (fun img s am fg bg er om => on_ext W (remove img s am fg bg er om))
    (fun img p fmt opt => on_ext W (save img p fmt opt))
    convert_RGBA OUTPUT_FOLDER session alpha_matting only_mask
    (p :: images) {| ext := (x4, stdin2); stdout := out |} = (r, w') ->
  run_script {| ext := (x0, stdin); stdout := out |}
  = (match r with inr _ => 0 | inl _ => 1 end, w').
Proof.
  intros Himg Hloop.
  unfold script, main, ensure_folders_exist, mbind, P_bind, call, on_stdin.
  unfold on_ext at 1 2 3 4.
  main_step. rewrite mkdir_input. main_step. rewrite mkdir_output. main_step.
  rewrite iterdir_input. main_step. rewrite Himg. main_step.
  rewrite model_chosen. main_step. rewrite options_chosen. main_step.
  rewrite session_made. main_step.
  match goal with
  | |- context [main_loop ?a ?b ?c ?d ?e ?f ?g ?h ?i ?j ?k ?w] =>
      replace (main_loop a b c d e f g h i j k w) with (r, w')
        by (symmetry; exact Hloop)
  end.
  by destruct r as [[e|]|[s f]].
Qed.

(** An interrupt while the first image is opened ends the run with exit
    status 1, and no further image is started. *)
Theorem script_interrupted (out : list output) p images x5 :
  get_images_to_process listing = p :: images ->
  Image_open p x4 = (inl KeyboardInterrupt, x5) ->
  run_script {| ext := (x0, stdin); stdout := out |}
  = (1, {| ext := (x5, stdin2);
           stdout := out ++ [Progress 1 (S (length images));
                             Processing (name p)] |}).
Proof.
  intros Himg Hint.
  rewrite (script_reaches_loop out p images (inl KeyboardInterrupt)
             {| ext := (x5, stdin2);
                stdout := out ++ [Progress 1 (S (length images));
                                  Processing (name p)] |} Himg); [done|].
  unfold main_loop. simpl. unfold mbind, P_bind, print. simpl.
  rewrite (process_image_advanced_interrupted (console W) Session
             (fun p => on_ext W (Image_open p)) _ _ convert_RGBA
             p OUTPUT_FOLDER session alpha_matting only_mask _ (x5, stdin2)).
  - simpl. by rewrite <- app_assoc.
  - unfold on_ext. simpl. by rewrite Hint.
Qed.

(** The collaborators of the loop raise errors but are not interrupted. *)
Hypothesis open_not_interrupted :
  forall p x, (Image_open p x).1 <> inl KeyboardInterrupt.
Hypothesis remove_not_interrupted :
  forall img s am fg bg er om x,
    (remove img s am fg bg er om x).1 <> inl KeyboardInterrupt.
Hypothesis save_not_interrupted :
  forall img p fmt opt x, (save img p fmt opt x).1 <> inl KeyboardInterrupt.


End MainProps.

Lemma script_no_images_witness :
  script nat unit sample_mkdir
    (fun _ x =>
       (inr [ {| file := {| parent := "input"; stem := "notes"; suffix := ".txt" |};
                 is_file := true |};
              {| file := {| parent := "input"; stem := "old"; suffix := ".png" |};
                 is_file := false |} ], x))
    sample_new_session sample_open sample_remove sample_save
    (fun image => image)
    {| ext := (0%nat, ["5"; "n"]); stdout := [] |}
  = (0, {| ext := (0%nat, ["5"; "n"]); stdout := [] |}).
Proof.
  eapply (script_no_images nat unit sample_mkdir); try reflexivity.
  repeat first [apply Forall_nil_2 | apply Forall_cons_2]; reflexivity.
Defined.

Lemma script_eof_witness :
  script nat unit sample_mkdir sample_iterdir sample_new_session
    sample_open sample_remove sample_save (fun image => image)
    {| ext := (0%nat, ["9"; "2"; "n"]); stdout := [] |}
  = (1, {| ext := (0%nat, []); stdout := [] |}).
Proof.
  eapply (script_eof nat unit sample_mkdir sample_iterdir); try reflexivity.
  - vm_compute. discriminate.
  - right. exists "u2netp", ["n"]. split; [reflexivity | simpl; lia].
Defined.

Lemma script_interrupted_witness :
  script nat unit sample_mkdir sample_iterdir sample_new_session
    (fun _ x => (inl KeyboardInterrupt, x)) sample_remove sample_save
    (fun image => image)
    {| ext := (0%nat, [""; ""; ""]); stdout := [] |}
  = (1, {| ext := (0%nat, []);
           stdout := [Progress 1 3; Processing "a.jpg"] |}).
Proof.
  apply (script_interrupted nat unit sample_mkdir sample_iterdir
           sample_new_session (fun _ x => (inl KeyboardInterrupt, x))
           sample_remove sample_save (fun image => image)
           0%nat 0%nat 0%nat 0%nat sample_listing eq_refl eq_refl eq_refl
           [""; ""; ""] [""; ""] [] "u2net" true false tt 0%nat
           eq_refl eq_refl eq_refl []
           {| parent := "input"; stem := "a"; suffix := ".jpg" |}
           [ {| parent := "input"; stem := "broken"; suffix := ".png" |};
             {| parent := "input"; stem := "locked"; suffix := ".webp" |} ]
           0%nat);
    reflexivity.
Defined.


(** * Where a processed image is written *)

Lemma string_length_app (s t : string) :
  String.length (s +:+ t) = (String.length s + String.length t)%nat.
Proof.
  induction s as [|c s IH]; [done|]. rewrite append_cons. simpl. by rewrite IH.
Qed.

Lemma string_app_inv_tail (s1 s2 t : string) :
  s1 +:+ t = s2 +:+ t -> s1 = s2.
Proof.
  revert s2. induction s1 as [|a s1 IH]; intros [|b s2] H.
  - reflexivity.
  - apply (f_equal String.length) in H.
    rewrite !string_length_app in H. simpl in H. lia.
  - apply (f_equal String.length) in H.
    rewrite !string_length_app in H. simpl in H. lia.
  - rewrite !append_cons in H. injection H as -> H. f_equal. by apply IH.
Qed.

Section OutputFile.

Variables W Session : Type.
Variable Image_open : Path -> W -> (BaseException + Image) * W.
Variable remove :
  Image -> Session -> bool -> Z -> Z -> Z -> bool ->
  W -> (BaseException + Image) * W.
Variable save : Image -> Path -> string -> bool -> W -> (BaseException + unit) * W.
Variable convert_RGBA : Image -> Image.

Lemma process_image_advanced_success_inv
  input_path output_path session am om w output_file w' :
  process_image_advanced W Session Image_open remove save convert_RGBA
    input_path output_path session am om w
  = (inr (true, output_file), w') ->
  output_file = Some {| parent := output_path;
                        stem := stem input_path +:+ "_no_bg";
                        suffix := ".png" |} /\
  stdout w' = stdout w ++ [Processing (name input_path); Done] /\
  exists img x1 img2 x2 img3,
    Image_open input_path (ext w) = (inr img, x1) /\
    remove img session am 240 10 10 om x1 = (inr img2, x2) /\
    ensure_transparency convert_RGBA img2 = inr img3 /\
    save img3 {| parent := output_path;
                 stem := stem input_path +:+ "_no_bg";
                 suffix := ".png" |} "PNG" true x2 = (inr tt, ext w').
Proof.
  unfold process_image_advanced, try_except, mbind, P_bind,
    call, lift, print, mret, P_ret. simpl.
  destruct (Image_open input_path (ext w)) as [[[e1|]|img] x1]; simpl;
    try discriminate.
  destruct (remove img session am 240 10 10 om x1) as [[[e2|]|img2] x2] eqn:Er;
    simpl; try discriminate.
  destruct (ensure_transparency convert_RGBA img2) as [e3|img3] eqn:Et; simpl;
    try discriminate.
  match goal with |- context [save ?i ?p ?f ?o ?x] =>
    destruct (save i p f o x) as [[[e4|]|[]] x3] eqn:Es end; simpl;
    try discriminate.
  intros [= <- <-]. simpl. split; [done|]. split; [by rewrite <- app_assoc|].
  exists img, x1, img2, x2, img3. by rewrite Er, Et.
Qed.

(** A success names the file that was written: it lies in the output
    folder, keeps the stem of the input with [_no_bg] added, and always has
    the suffix [.png]; the image saved there is the refined output of the
    model, saved as an optimised PNG, and the run printed the start and the
    success message. *)
Theorem process_image_advanced_success
  input_path output_path session am om w output_file w' :
  process_image_advanced W Session Image_open remove save convert_RGBA
    input_path output_path session am om w
  = (inr (true, output_file), w') ->
  output_file = Some {| parent := output_path;
                        stem := stem input_path +:+ "_no_bg";
                        suffix := ".png" |} /\
  stdout w' = stdout w ++ [Processing (name input_path); Done] /\
  exists img x1 img2 x2 img3,
    Image_open input_path (ext w) = (inr img, x1) /\
    remove img session am 240 10 10 om x1 = (inr img2, x2) /\
    ensure_transparency convert_RGBA img2 = inr img3 /\
    save img3 {| parent := output_path;
                 stem := stem input_path +:+ "_no_bg";
                 suffix := ".png" |} "PNG" true x2 = (inr tt, ext w').
Proof. apply process_image_advanced_success_inv. Qed.

(** Two inputs are written to the same output file exactly when they have
    the same stem: inputs that differ in their suffix only, such as a JPEG
    and a PNG of one name, end in one file. *)
Theorem output_file_collision
  p q output_path session am om w1 w2 f1 f2 w1' w2' :
  process_image_advanced W Session Image_open remove save convert_RGBA
    p output_path session am om w1 = (inr (true, Some f1), w1') ->
  process_image_advanced W Session Image_open remove save convert_RGBA
    q output_path session am om w2 = (inr (true, Some f2), w2') ->
  (f1 = f2 <-> stem p = stem q).
Proof.
  intros H1 H2.
  apply process_image_advanced_success_inv in H1 as [[= ->] _].
  apply process_image_advanced_success_inv in H2 as [[= ->] _].
  split.
  - intros [= E]. by apply string_app_inv_tail in E.
  - by intros ->.
Qed.

End OutputFile.

Lemma process_image_advanced_success_witness :
  Some {| parent := "output"; stem := "a_no_bg"; suffix := ".png" |}
  = Some {| parent := "output"; stem := "a" +:+ "_no_bg"; suffix := ".png" |} /\
  stdout {| ext := 1%nat; stdout := [Processing "a.jpg"; Done] |}
  = [] ++ [Processing (name {| parent := "input"; stem := "a"; suffix := ".jpg" |});
           Done] /\
  exists img x1 img2 x2 img3,
    sample_open {| parent := "input"; stem := "a"; suffix := ".jpg" |} 0%nat
    = (inr img, x1) /\
    sample_remove img tt true 240 10 10 false x1 = (inr img2, x2) /\
    ensure_transparency (fun image => image) img2 = inr img3 /\
    sample_save img3 {| parent := "output"; stem := "a" +:+ "_no_bg";
                        suffix := ".png" |} "PNG" true x2
    = (inr tt, 1%nat).
Proof.
  apply (process_image_advanced_success nat unit sample_open sample_remove
           sample_save (fun image => image)
           {| parent := "input"; stem := "a"; suffix := ".jpg" |}
           "output" tt true false {| ext := 0%nat; stdout := [] |}
           (Some {| parent := "output"; stem := "a_no_bg"; suffix := ".png" |})
           {| ext := 1%nat; stdout := [Processing "a.jpg"; Done] |}).
  reflexivity.
Defined.

Lemma output_file_collision_witness :
  {| parent := "output"; stem := "a_no_bg"; suffix := ".png" |}
  = {| parent := "output"; stem := "a_no_bg"; suffix := ".png" |}
  <-> stem {| parent := "input"; stem := "a"; suffix := ".jpg" |}
      = stem {| parent := "input"; stem := "a"; suffix := ".png" |}.
Proof.
  apply (output_file_collision nat unit sample_open sample_remove
           sample_save (fun image => image)
           {| parent := "input"; stem := "a"; suffix := ".jpg" |}
           {| parent := "input"; stem := "a"; suffix := ".png" |}
           "output" tt true false
           {| ext := 0%nat; stdout := [] |} {| ext := 1%nat; stdout := [] |}
           _ _
           {| ext := 1%nat; stdout := [Processing "a.jpg"; Done] |}
           {| ext := 2%nat; stdout := [Processing "a.png"; Done] |});
    reflexivity.
Defined.
